(** * Robustness Metrics: OOD-detection dataset composition and
      ensemble-diversity accumulation

    A shallow embedding of [robustness_metrics/datasets/ood_detection.py]
    together with the parts of Python and of [tf.data] that this module
    calls, followed by the accumulator that [metrics/diversity_test.py]
    exercises.  Definitions come first, theorems afterwards. *)

From Stdlib Require Import ZArith QArith Reals Lra.
From stdpp Require Import gmap strings list fin_maps.

#[local] Set Warnings "-register-all".
#[local] Open Scope string_scope.

(* ===================================================================== *)
(** * Python: exceptions and fallible computations *)
(* ===================================================================== *)

Module Py.

  (** The exception classes that the modelled code paths can raise. *)
Inductive exn : Type :=
    | KeyError (key : string)         (* [d[key]] on a dict without [key] *)
    | AttributeError (attr : string)  (* [obj.attr] on an object without it *)
    | TypeError (msg : string)
    | ValueError (msg : string)
    | InvalidArgumentError (msg : string).

Definition exn_name (e : exn) : string :=
    match e with
    | KeyError _ => "KeyError"
    | AttributeError _ => "AttributeError"
    | TypeError _ => "TypeError"
    | ValueError _ => "ValueError"
    | InvalidArgumentError _ => "InvalidArgumentError"
    end.

  (** A call either returns or raises. *)
Inductive result (A : Type) : Type :=
    | OK (a : A)
    | Raise (e : exn).
Arguments OK {A} a.
Arguments Raise {A} e.

Definition bind {A B} (r : result A) (k : A → result B) : result B :=
    match r with
    | OK a => k a
    | Raise e => Raise e
    end.

Definition returned {A} (r : result A) : option A :=
    match r with OK a => Some a | Raise _ => None end.

Definition raised {A} (r : result A) : option exn :=
    match r with OK _ => None | Raise e => Some e end.

  (** A dict comprehension [{k: body(k) for k in keys}] whose bodies have
      already been evaluated to results: the comprehension raises as soon
      as one body raises, and otherwise builds the dict.  The iteration
      order over a Python [set] of keys is unspecified; the model takes the
      map's own key order. *)
Definition comprehension {V} (bodies : gmap string (result V))
      : result (gmap string V) :=
    match map_to_list (omap raised bodies) with
    | (_, e) :: _ => Raise e
    | [] => OK (omap returned bodies)
    end.

End Py.

Export Py.

#[global] Instance result_bind : MBind result := λ A B k r, Py.bind r k.
#[global] Instance result_ret : MRet result := @Py.OK.
#[global] Instance result_fmap : FMap result :=
  λ A B f r, match r with OK a => OK (f a) | Raise e => Raise e end.

(* ===================================================================== *)
(** * TensorFlow: tensors, nested structures, lazy datasets *)
(* ===================================================================== *)

Module tf.

  (** The dtypes of the features at hand: the numeric ones, and
      [tf.string], the dtype of the [id] of a CIFAR example, which cannot
      take the name that Rocq gives to its own strings. *)
Inductive DType : Type :=
    uint8 | int32 | int64 | float32 | float64 | tf_string.

#[global] Instance DType_eq_dec : EqDecision DType.
Proof. solve_decision. Defined.

Definition is_floating (d : DType) : bool :=
    match d with float32 | float64 => true | _ => false end.

  (** An element of a tensor. *)
Inductive scalar : Type :=
    | SInt (n : Z)
    | SFloat (q : Q)
    | SBytes (s : string).

  (** [cast n d]: the integer [n] as an element of the numeric dtype [d]. *)
Definition cast (n : Z) (d : DType) : scalar :=
    if is_floating d then SFloat (inject_Z n) else SInt n.

  (** [tf.constant(n, dtype=d)] for a Python integer [n]: an integer is
      not converted to a string.  The wording of the message depends on
      the execution mode, the class does not. *)
Definition constant (n : Z) (d : DType) : result scalar :=
    if decide (d = tf_string)
    then Raise (TypeError "Expected string, got int")
    else OK (cast n d).

  (** What [tf.zeros] fills with: the empty string for [tf.string], and
      the number 0 otherwise. *)
Definition zero (d : DType) : scalar :=
    if decide (d = tf_string) then SBytes "" else cast 0 d.

  (** [s] holds the number [n]. *)
Definition scalar_is (n : Z) (s : scalar) : bool :=
    match s with
    | SInt m => Z.eqb m n
    | SFloat q => Qeq_bool q (inject_Z n)
    | SBytes _ => false
    end.

  (** An eager tensor: fully known shape, a dtype, and its elements in
      row-major order. *)
Record Tensor : Type := mkTensor {
    shape : list nat;
    dtype : DType;
    values : list scalar;
  }.

Definition num_elements (sh : list nat) : nat := foldr Nat.mul 1%nat sh.

  (** [tf.fill(shape, v)], for an element [v] of dtype [d]. *)
Definition fill (sh : list nat) (d : DType) (v : scalar) : Tensor :=
    {| shape := sh; dtype := d; values := replicate (num_elements sh) v |}.

  (** A static shape: unknown rank ([None]) or a list of dimensions, each
      known or not. *)
Definition TensorShape : Type := option (list (option nat)).

  (** [tf.TensorSpec]; it also stands for the symbolic tensor that
      [Dataset.map] hands to the mapped function while tracing it. *)
Record TensorSpec : Type := mkTensorSpec {
    spec_shape : TensorShape;
    spec_dtype : DType;
  }.

  (** What [tf.ones_like] and [tf.zeros_like] need of their argument; the
      mapped functions run on eager tensors and on symbolic ones alike.
      [executing_eagerly] tells the two modes apart, [fill_like t v] is
      [tf.fill(tf.shape(t), v)]. *)
Class TensorLike (T : Type) : Type := {
    executing_eagerly : bool;
    tensor_dtype : T → DType;
    fill_like : T → scalar → T;
  }.
Arguments executing_eagerly T {_}.

#[global] Instance Tensor_like : TensorLike Tensor := {|
    executing_eagerly := true;
    tensor_dtype := dtype;
    fill_like t v := fill (shape t) (dtype t) v;
  |}.

#[global] Instance TensorSpec_like : TensorLike TensorSpec := {|
    executing_eagerly := false;
    tensor_dtype := spec_dtype;
    fill_like s _ := s;
  |}.

  (** A nested structure in the sense of [tf.nest], restricted to what the
      module handles: a tensor, or a dict from names to nested structures. *)
Inductive nest (T : Type) : Type :=
    | Leaf (t : T)
    | Dict (d : gmap string (nest T)).
Arguments Leaf {T} t.
Arguments Dict {T} d.

  (** [types.Features]: the dict a dataset element is. *)
Abbreviation Features T := (gmap string (nest T)).

Definition isinstance_dict {T} (x : nest T) : bool :=
    match x with Dict _ => true | Leaf _ => false end.

  (** [tf.nest.flatten]: the tensors of a structure.  TensorFlow sorts the
      keys of a dict; the model takes the map's own key order. *)
Fixpoint flatten {T} (x : nest T) : list T :=
    match x with
    | Leaf t => [t]
    | Dict d => map_fold (λ _ v acc, flatten v ++ acc)%list [] d
    end.

  (** What [tf.convert_to_tensor] raises when it is given a dict: a
      [ValueError] when executing eagerly, a [TypeError] while a function
      is traced, as the functions mapped over a dataset are. *)
Definition not_a_tensor (T : Type) `{TensorLike T} : exn :=
    if executing_eagerly T
    then ValueError "Attempt to convert a value with an unsupported type to a Tensor"
    else TypeError "Failed to convert elements to Tensor".

  (** [tf.ones_like(t)] on a tensor: [fill(shape(t), constant(1, t.dtype))],
      which no string tensor has. *)
Definition tensor_ones_like {T} `{TensorLike T} (t : T) : result T :=
    one ← constant 1 (tensor_dtype t); OK (fill_like t one).

  (** [tf.zeros_like(t)] on a tensor. *)
Definition tensor_zeros_like {T} `{TensorLike T} (t : T) : T :=
    fill_like t (zero (tensor_dtype t)).

  (** [tf.ones_like(x)] / [tf.zeros_like(x)] on a value found in a feature
      dict: the value is first converted to a tensor, which a dict cannot
      be. *)
Definition ones_like {T} `{TensorLike T} (x : nest T) : result (nest T) :=
    match x with
    | Leaf t => ones ← tensor_ones_like t; OK (Leaf ones)
    | Dict _ => Raise (not_a_tensor T)
    end.

Definition zeros_like {T} `{TensorLike T} (x : nest T) : result (nest T) :=
    match x with
    | Leaf t => OK (Leaf (tensor_zeros_like t))
    | Dict _ => Raise (not_a_tensor T)
    end.

End tf.

Export tf.

Module data.

  (** A function that [Dataset.map] can take: Python code that treats its
      tensors only through the TensorFlow API, so that the same code runs
      on the symbolic element while the function is traced and on every
      element when the dataset is iterated.  [X] and [Y] are the shapes of
      the argument and of the value (a feature dict, a nested structure). *)
Definition PyFunction (X Y : Type → Type) : Type :=
    ∀ T, TensorLike T → X T → result (Y T).

  (** [tf.data.Dataset]: the element spec, known without reading any
      element, and a way to make and to advance an iterator.  [get_next]
      answers [None] at the end of the sequence, and otherwise gives the
      next element (or the error raised while producing it) with the
      advanced iterator. *)
Record Dataset (X : Type → Type) : Type := mkDataset {
    element_spec : X TensorSpec;
    iterator : Type;
    make_iterator : iterator;
    get_next : iterator → option (result (X Tensor) * iterator);
  }.
Arguments mkDataset {X} _ _ _ _.
Arguments element_spec {X} _.
Arguments iterator {X} _.
Arguments make_iterator {X} _.
Arguments get_next {X} _ _.

  (** The first [n] elements read from iterator state [s] (fewer when the
      sequence ends before), with the state reached. *)
Fixpoint read {X} (ds : Dataset X) (n : nat) (s : iterator ds)
      : list (result (X Tensor)) * iterator ds :=
    match n with
    | O => ([], s)
    | S n' =>
        match get_next ds s with
        | None => ([], s)
        | Some (r, s') => let '(rs, s'') := read ds n' s' in (r :: rs, s'')
        end
    end.

Definition take {X} (n : nat) (ds : Dataset X) : list (result (X Tensor)) :=
    (read ds n (make_iterator ds)).1.

  (** The dataset that [ds.map(f)] makes once [f] has been traced with
      value [spec]: the iterators are those of [ds], and every element is
      transformed as it is read. *)
Definition mapped {X Y} (f : PyFunction X Y) (ds : Dataset X)
      (spec : Y TensorSpec) : Dataset Y :=
    {| element_spec := spec;
       iterator := iterator ds;
       make_iterator := make_iterator ds;
       get_next s :=
         match get_next ds s with
         | None => None
         | Some (r, s') => Some (r ≫= f Tensor _, s')
         end |}.

  (** What making a [MapDataset] op without any output raises: the op
      wants at least one ([output_types: list(type) >= 1]). *)
Definition no_output : exn :=
    InvalidArgumentError
      "Length for attr output_types of 0 must be at least minimum 1".

  (** [ds.map(f)]: [f] is traced once on the symbolic element, at the call;
      an exception raised while tracing leaves the call.  The traced
      function's value gives the new element spec, and its tensors the
      outputs of the op: a function whose value holds no tensor makes the
      call raise. *)
Definition map {X} (f : PyFunction X nest) (ds : Dataset X)
      : result (Dataset nest) :=
    spec ← f TensorSpec _ (element_spec ds);
    if decide (flatten spec = []) then Raise no_output
    else OK (mapped f ds spec).

  (** [most_specific_compatible_shape]: keeps the dimensions on which the
      two shapes agree. *)
Definition compatible_dim (d1 d2 : option nat) : option nat :=
    match d1, d2 with
    | Some n1, Some n2 => if decide (n1 = n2) then Some n1 else None
    | _, _ => None
    end.

Definition most_specific_compatible_shape (s1 s2 : TensorShape) : TensorShape :=
    match s1, s2 with
    | Some l1, Some l2 =>
        if decide (length l1 = length l2)
        then Some (zip_with compatible_dim l1 l2) else None
    | _, _ => None
    end.

Definition incompatible {A} : result A :=
    Raise (TypeError "Incompatible dataset elements").

  (** The element spec of a concatenation: both specs must have the same
      nested structure and, leaf by leaf, the same dtype; shapes are
      relaxed to what both sides share. *)
Fixpoint common_spec (s1 s2 : nest TensorSpec) {struct s1}
      : result (nest TensorSpec) :=
    match s1, s2 with
    | Leaf t1, Leaf t2 =>
        if decide (spec_dtype t1 = spec_dtype t2)
        then OK (Leaf {| spec_shape := most_specific_compatible_shape
                                         (spec_shape t1) (spec_shape t2);
                         spec_dtype := spec_dtype t1 |})
        else incompatible
    | Dict d1, Dict d2 =>
        if decide (dom d1 = dom d2)
        then d ← comprehension (map_zip_with common_spec d1 d2); OK (Dict d)
        else incompatible
    | _, _ => incompatible
    end.

  (** The dataset that [a.concatenate(b)] makes once the specs have been
      found compatible: its iterator is an iterator on [a] until [a] ends;
      only then is an iterator on [b] made, and read from. *)
Definition concatenated (a b : Dataset nest) (spec : nest TensorSpec)
      : Dataset nest :=
    {| element_spec := spec;
       iterator := iterator a + iterator b;
       make_iterator := inl (make_iterator a);
       get_next s :=
         let from_b sb := prod_map (λ r, r) inr <$> get_next b sb in
         match s with
         | inl sa =>
             match get_next a sa with
             | Some (r, sa') => Some (r, inl sa')
             | None => from_b (make_iterator b)
             end
         | inr sb => from_b sb
         end |}.

  (** [a.concatenate(b)]: the spec check happens at the call. *)
Definition concatenate (a b : Dataset nest) : result (Dataset nest) :=
    spec ← common_spec (element_spec a) (element_spec b);
    OK (concatenated a b spec).

  (** A dataset that holds the elements of a list. *)
Definition from_list {X} (spec : X TensorSpec) (l : list (X Tensor)) : Dataset X :=
    {| element_spec := spec;
       iterator := list (X Tensor);
       make_iterator := l;
       get_next s := match s with [] => None | x :: s' => Some (OK x, s') end |}.

End data.

(* ===================================================================== *)
(** * robustness_metrics/datasets/ood_detection.py *)
(* ===================================================================== *)

Module ood_detection.
Import data.

Section Functions.
Context {T : Type} `{TensorLike T}.

Definition _set_label_to_one (feature : Features T) : result (Features T) :=
      match feature !! "label" with
      | None => Raise (KeyError "label")
      | Some l => ones ← ones_like l; OK (<["label" := ones]> feature)
      end.

Definition _set_label_to_zero (feature : Features T) : result (Features T) :=
      match feature !! "label" with
      | None => Raise (KeyError "label")
      | Some l => zeros ← zeros_like l; OK (<["label" := zeros]> feature)
      end.

    (** Delete the keys of feature that are not in spec. *)
Fixpoint _keep_common_fields {S} (feature : nest T) (spec : nest S)
        {struct feature} : result (nest T) :=
      match feature with
      | Leaf _ => OK feature
      | Dict f =>
          match spec with
          | Leaf _ => Raise (AttributeError "keys")
          | Dict s =>
              d ← comprehension (map_zip_with _keep_common_fields f s);
              OK (Dict d)
          end
      end.

End Functions.

Definition format_in_ds (out_spec : Features TensorSpec)
      : PyFunction (λ T, Features T) nest :=
    λ T _ feature,
      feature ← _set_label_to_one feature;
      _keep_common_fields (Dict feature) (Dict out_spec).

Definition format_out_ds (in_spec : Features TensorSpec)
      : PyFunction (λ T, Features T) nest :=
    λ T _ feature,
      feature ← _set_label_to_zero feature;
      _keep_common_fields (Dict feature) (Dict in_spec).

  (** Concatenate in_ds and out_ds, making sure they have compatible specs. *)
Definition _concatenate (in_ds out_ds : Dataset (λ T, Features T))
      : result (Dataset nest) :=
    let in_spec := element_spec in_ds in
    let out_spec := element_spec out_ds in
    mapped_in ← map (format_in_ds out_spec) in_ds;
    mapped_out ← map (format_out_ds in_spec) out_ds;
    concatenate mapped_in mapped_out.

End ood_detection.

(** ** The class [OodDetectionDataset] and its registered subclasses *)

Module datasets.
Import data ood_detection.

  (** Modelled from the spec: [base.DatasetInfo] and [base.Dataset] are
      declared in [datasets/base.py], outside the files at hand.  The info
      is "currently just a class-count"; a dataset gives its info and loads
      as a [tf.data.Dataset] of feature dicts. *)
Record DatasetInfo : Type := mkDatasetInfo { num_classes : nat }.

Definition preprocess_fn_t : Type :=
    option (PyFunction (λ T, Features T) (λ T, Features T)).

Record base_Dataset : Type := mkBaseDataset {
    base_info : DatasetInfo;
    base_load : preprocess_fn_t → result (Dataset (λ T, Features T));
  }.

  (** A dataset made of a pair of one in- and one out-of-distribution
      datasets.  The two abstract properties are what a subclass supplies. *)
Record OodDetectionDataset : Type := mkOodDetectionDataset {
    in_dataset : base_Dataset;
    out_dataset : base_Dataset;
  }.

Definition info (self : OodDetectionDataset) : DatasetInfo :=
    {| num_classes := 2 |}.

Definition load (self : OodDetectionDataset) (preprocess_fn : preprocess_fn_t)
      : result (Dataset nest) :=
    in_ds ← base_load (in_dataset self) preprocess_fn;
    out_ds ← base_load (out_dataset self) preprocess_fn;
    _concatenate in_ds out_ds.

Section Registered.
    (** [rm_tfds.Cifar10Dataset()] and [rm_tfds.Cifar100Dataset()]. *)
Variables Cifar10Dataset Cifar100Dataset : base_Dataset.

Definition Cifar10VsCifar100Dataset : OodDetectionDataset :=
      {| in_dataset := Cifar10Dataset; out_dataset := Cifar100Dataset |}.

Definition Cifar100VsCifar10Dataset : OodDetectionDataset :=
      {| in_dataset := Cifar100Dataset; out_dataset := Cifar10Dataset |}.
End Registered.

End datasets.

(* ===================================================================== *)
(** * Vocabulary of the specification *)
(* ===================================================================== *)

Module schemas.
Import data.

  (** The nesting of a structure with its tensors forgotten. *)
Fixpoint structure {T} (x : nest T) : nest () :=
    match x with
    | Leaf _ => Leaf ()
    | Dict d => Dict (structure <$> d)
    end.

  (** The number of dicts in a structure; a measure for induction on
      nested structures. *)
Fixpoint weight {T} (x : nest T) : nat :=
    match x with
    | Leaf _ => 0
    | Dict d => S (map_fold (λ _ v acc, weight v + acc) 0 d)
    end.

  (** The schema of a structure: the paths, from the top, of its leaves. *)
Fixpoint schema {T} (x : nest T) : gset (list string) :=
    match x with
    | Leaf _ => {[ [] ]}
    | Dict d => map_fold (λ k v acc, set_map (cons k) (schema v) ∪ acc) ∅ d
    end.

  (** The value found by following a path of field names. *)
Fixpoint at_path {T} (p : list string) (x : nest T) : option (nest T) :=
    match p with
    | [] => Some x
    | k :: p' =>
        match x with
        | Dict d => d !! k ≫= at_path p'
        | Leaf _ => None
        end
    end.

  (** The iterator states that reading can reach. *)
Inductive reachable {X} (ds : Dataset X) : iterator ds → Prop :=
    | reachable_start : reachable ds (make_iterator ds)
    | reachable_next s r s' :
        reachable ds s → get_next ds s = Some (r, s') → reachable ds s'.

  (** The dtypes of the tensors of a structure, each at its place. *)
Fixpoint dtypes {T} `{TensorLike T} (x : nest T) : nest DType :=
    match x with
    | Leaf t => Leaf (tensor_dtype t)
    | Dict d => Dict (dtypes <$> d)
    end.

  (** The invariant of a [tf.data.Dataset] of feature dicts: reading an
      element does not fail, and every element is of the element spec: it
      is nested as the spec says, with tensors of the dtypes that the spec
      says. *)
Definition well_formed (ds : Dataset (λ T, Features T)) : Prop :=
    ∀ s r s', reachable ds s → get_next ds s = Some (r, s') →
      ∃ x, r = OK x ∧ dtypes (Dict x) = dtypes (Dict (element_spec ds)).

  (** When [_concatenate] can succeed on two element specs: both hold a
      tensor [label], on which [tf.ones_like] is defined for the
      in-distribution one, and wherever a path of field names exists in
      both specs, they hold two mappings there, or two tensors of the same
      dtype. *)
Definition composable (in_spec out_spec : Features TensorSpec) : Prop :=
    (∃ l, in_spec !! "label" = Some (Leaf l) ∧ spec_dtype l ≠ tf_string) ∧
    (∃ l, out_spec !! "label" = Some (Leaf l)) ∧
    ∀ p v w,
      at_path p (Dict in_spec) = Some v → at_path p (Dict out_spec) = Some w →
      match v, w with
      | Leaf a, Leaf b => spec_dtype a = spec_dtype b
      | Dict _, Dict _ => True
      | _, _ => False
      end.

  (** All elements of tensor [t] hold the number [n], and there are as many
      as the shape says. *)
Definition filled_with (n : Z) (t : Tensor) : Prop :=
    Forall (λ s, scalar_is n s = true) (values t) ∧
    length (values t) = num_elements (shape t).

End schemas.

(* ===================================================================== *)
(** * Sample sources *)
(* ===================================================================== *)

Module samples.
Import data ood_detection.

Definition scalar_spec (d : DType) : nest TensorSpec :=
    Leaf {| spec_shape := Some []; spec_dtype := d |}.

Definition vector_spec (d : DType) (n : nat) : nest TensorSpec :=
    Leaf {| spec_shape := Some [Some n]; spec_dtype := d |}.

Definition class_id (n : Z) : nest Tensor :=
    Leaf {| shape := []; dtype := int64; values := [SInt n] |}.

Definition pixels (a b : Q) : nest Tensor :=
    Leaf {| shape := [2%nat]; dtype := float32; values := [SFloat a; SFloat b] |}.

Definition source (spec : Features TensorSpec) (l : list (Features Tensor))
      : Dataset (λ T, Features T) :=
    from_list (X := λ T, Features T) spec l.

  (** An in-distribution source of two records with fields [{x, label}]. *)
Definition spec_x_label : Features TensorSpec :=
    {[ "x" := vector_spec float32 2; "label" := scalar_spec int64 ]}.
Definition record_x_label (a : Q) (c : Z) : Features Tensor :=
    {[ "x" := pixels a 0; "label" := class_id c ]}.
Definition in_x_label : Dataset (λ T, Features T) :=
    source spec_x_label [record_x_label (1#2) 3; record_x_label (1#4) 7].

  (** An out-of-distribution source of three records with fields
      [{x, y}] and no [label]. *)
Definition spec_x_y : Features TensorSpec :=
    {[ "x" := vector_spec float32 2; "y" := scalar_spec int64 ]}.
Definition record_x_y (a : Q) (c : Z) : Features Tensor :=
    {[ "x" := pixels a 1; "y" := class_id c ]}.
Definition out_x_y : Dataset (λ T, Features T) :=
    source spec_x_y [record_x_y 0 1; record_x_y 1 2; record_x_y (1#8) 5].

  (** The same three records carrying a [label] as well. *)
Definition spec_x_y_label : Features TensorSpec :=
    <["label" := scalar_spec int64]> spec_x_y.
Definition record_x_y_label (a : Q) (c : Z) : Features Tensor :=
    <["label" := class_id c]> (record_x_y a c).
Definition out_x_y_label : Dataset (λ T, Features T) :=
    source spec_x_y_label
      [record_x_y_label 0 1; record_x_y_label 1 2; record_x_y_label (1#8) 5].

  (** Two sources with no field in common. *)
Definition only_x : Dataset (λ T, Features T) :=
    source {[ "x" := vector_spec float32 2 ]} [ {[ "x" := pixels 0 0 ]} ].
Definition only_y : Dataset (λ T, Features T) :=
    source {[ "y" := scalar_spec int64 ]} [ {[ "y" := class_id 4 ]} ].

  (** Field [k] is a tensor on one side and a nested mapping on the other. *)
Definition spec_k_leaf : Features TensorSpec :=
    {[ "k" := scalar_spec int64; "label" := scalar_spec int64 ]}.
Definition record_k_leaf : Features Tensor :=
    {[ "k" := class_id 9; "label" := class_id 3 ]}.
Definition in_k_leaf : Dataset (λ T, Features T) :=
    source spec_k_leaf [record_k_leaf].

Definition spec_k_dict : Features TensorSpec :=
    {[ "k" := Dict {[ "a" := scalar_spec int64 ]}; "label" := scalar_spec int64 ]}.
Definition record_k_dict : Features Tensor :=
    {[ "k" := Dict {[ "a" := class_id 9 ]}; "label" := class_id 5 ]}.
Definition out_k_dict : Dataset (λ T, Features T) :=
    source spec_k_dict [record_k_dict].

  (** Two sources that nest a mapping [m]; each has fields that the other
      lacks, at the top ([z], [y]) and inside [m] ([b], [c]). *)
Definition spec_nested_in : Features TensorSpec :=
    {[ "x" := vector_spec float32 2; "z" := scalar_spec int64;
       "m" := Dict {[ "a" := scalar_spec int64; "b" := scalar_spec int64 ]};
       "label" := scalar_spec int64 ]}.
Definition record_nested_in (a : Q) (c : Z) : Features Tensor :=
    {[ "x" := pixels a 0; "z" := class_id (c + 1);
       "m" := Dict {[ "a" := class_id (c + 2); "b" := class_id (c + 3) ]};
       "label" := class_id c ]}.
Definition in_nested : Dataset (λ T, Features T) :=
    source spec_nested_in [record_nested_in (1#2) 3; record_nested_in (1#4) 7].

Definition spec_nested_out : Features TensorSpec :=
    {[ "x" := vector_spec float32 2; "y" := scalar_spec int64;
       "m" := Dict {[ "a" := scalar_spec int64; "c" := scalar_spec int64 ]};
       "label" := scalar_spec int64 ]}.
Definition record_nested_out (a : Q) (c : Z) : Features Tensor :=
    {[ "x" := pixels a 1; "y" := class_id (c + 1);
       "m" := Dict {[ "a" := class_id (c + 2); "c" := class_id (c + 3) ]};
       "label" := class_id c ]}.
Definition out_nested : Dataset (λ T, Features T) :=
    source spec_nested_out [record_nested_out 0 1].

  (** What the two sources have in common. *)
Definition spec_nested_common : nest TensorSpec :=
    Dict {[ "x" := vector_spec float32 2;
            "m" := Dict {[ "a" := scalar_spec int64 ]};
            "label" := scalar_spec int64 ]}.

Definition composed_nested : Dataset nest :=
    concatenated
      (mapped (format_in_ds spec_nested_out) in_nested spec_nested_common)
      (mapped (format_out_ds spec_nested_in) out_nested spec_nested_common)
      spec_nested_common.

  (** Sources whose only field is a [label]: an integer, a string, a
      mapping. *)
Definition text (s : string) : nest Tensor :=
    Leaf {| shape := []; dtype := tf_string; values := [SBytes s] |}.

Definition only_label : Dataset (λ T, Features T) :=
    source {[ "label" := scalar_spec int64 ]} [ {[ "label" := class_id 1 ]} ].
Definition only_text_label : Dataset (λ T, Features T) :=
    source {[ "label" := scalar_spec tf_string ]} [ {[ "label" := text "cat" ]} ].
Definition only_dict_label : Dataset (λ T, Features T) :=
    source {[ "label" := Dict {[ "a" := scalar_spec int64 ]} ]}
           [ {[ "label" := Dict {[ "a" := class_id 1 ]} ]} ].

  (** The fields [{x, label}] with a string for a label. *)
Definition spec_x_text_label : Features TensorSpec :=
    {[ "x" := vector_spec float32 2; "label" := scalar_spec tf_string ]}.
Definition record_x_text_label (a : Q) (s : string) : Features Tensor :=
    {[ "x" := pixels a 0; "label" := text s ]}.
Definition in_x_text_label : Dataset (λ T, Features T) :=
    source spec_x_text_label [record_x_text_label (1#2) "cat"].

  (** What composing [in_x_label] with [out_x_y_label] gives. *)
Definition composed_x_label : Dataset nest :=
    concatenated
      (mapped (format_in_ds spec_x_y_label) in_x_label
              (Dict {[ "x" := vector_spec float32 2; "label" := scalar_spec int64 ]}))
      (mapped (format_out_ds spec_x_label) out_x_y_label
              (Dict {[ "x" := vector_spec float32 2; "label" := scalar_spec int64 ]}))
      (Dict {[ "x" := vector_spec float32 2; "label" := scalar_spec int64 ]}).

End samples.

(* ===================================================================== *)
(** * The ensemble-diversity accumulator *)
(* ===================================================================== *)

Module diversity.

#[local] Open Scope R_scope.

#[global] Instance Rle_decision : RelDecision Rle := Rle_dec.

  (** Modelled from the spec: [metrics/diversity.py] is not among the
      files at hand, only its test is.  Everything in this module is the
      accumulator as the specification describes it, over the real
      numbers: a batch of probabilities indexed by (ensemble member,
      example, class), running sums per unordered pair of members, and
      three averages. *)
Definition ProbabilityBatch : Type := list (list (list R)).

  (** A predicted distribution over the classes. *)
Abbreviation distribution := (list R).

Definition sum_R (l : list R) : R := foldr Rplus 0 l.

  (** The first index at which the largest entry stands. *)
Fixpoint argmax_from (best_i : nat) (best : R) (i : nat) (p : distribution)
      : nat :=
    match p with
    | [] => best_i
    | x :: p' =>
        if Rlt_dec best x then argmax_from i x (S i) p'
        else argmax_from best_i best (S i) p'
    end.

Definition argmax (p : distribution) : nat :=
    match p with
    | [] => 0%nat
    | x :: p' => argmax_from 0 x 1 p'
    end.

  (** The three contributions of one example to one pair of members. *)
Definition disagreement (p q : distribution) : R :=
    if decide (argmax p = argmax q) then 0 else 1.

Definition kl_divergence (p q : distribution) : R :=
    sum_R (zip_with (λ pc qc, if Req_dec_T pc 0 then 0 else pc * ln (pc / qc)) p q).

Definition dot (p q : distribution) : R := sum_R (zip_with Rmult p q).

Definition norm (p : distribution) : R := sqrt (dot p p).

Definition cosine_similarity (p q : distribution) : R :=
    if Req_dec_T (norm p) 0 then 0
    else if Req_dec_T (norm q) 0 then 0
    else dot p q / (norm p * norm q).

  (** The sums kept for one pair of members. *)
Record PairSums : Type := mkPairSums {
    disagreement_count : R;
    kl_sum : R;
    cosine_sum : R;
  }.

Definition no_sums : PairSums := mkPairSums 0 0 0.

Definition add_sums (a b : PairSums) : PairSums :=
    {| disagreement_count := disagreement_count a + disagreement_count b;
       kl_sum := kl_sum a + kl_sum b;
       cosine_sum := cosine_sum a + cosine_sum b |}.

Definition contribution (p q : distribution) : PairSums :=
    {| disagreement_count := disagreement p q;
       kl_sum := kl_divergence p q;
       cosine_sum := cosine_similarity p q |}.

Definition sum_sums (l : list PairSums) : PairSums := foldr add_sums no_sums l.

  (** The state: how many examples were seen, and the sums of every pair
      of members considered so far. *)
Record DiversityState : Type := mkDiversityState {
    examples_seen : nat;
    pair_sums : gmap (nat * nat) PairSums;
  }.

Definition empty_state : DiversityState :=
    {| examples_seen := 0; pair_sums := ∅ |}.

  (** The unordered pairs of [num_models] members, lower index first. *)
Definition pairs (num_models : nat) : list (nat * nat) :=
    i ← seq 0 num_models; j ← seq (S i) (num_models - S i); [(i, j)].

Definition examples_in (probs : ProbabilityBatch) : nat :=
    match probs with
    | member :: _ => length member
    | [] => 0
    end.

Definition classes_in (probs : ProbabilityBatch) : nat :=
    match probs with
    | (p :: _) :: _ => length p
    | _ => 0
    end.

  (** The examples of a batch, each as the list of its members'
      distributions. *)
Definition examples (probs : ProbabilityBatch) : list (list distribution) :=
    (λ e, (λ member, member !!! e) <$> probs) <$> seq 0 (examples_in probs).

  (** A metric's result: a single number, or the mark that stands for
      "undefined" when no example was seen. *)
Inductive Scalar : Type :=
    | undefined
    | scalar (r : R).

Section Accumulator.
    (** How far from 1 the sum of a distribution may be. *)
Variable tolerance : R.

Definition is_distribution (p : distribution) : Prop :=
      Rabs (sum_R p - 1) <= tolerance.

    (** What [add_batch] accepts: at least two members, as many as
        announced, all with the same number of examples, all
        distributions over the same number of classes and summing to 1. *)
Definition valid_batch (probs : ProbabilityBatch) (num_models : nat) : Prop :=
      (2 ≤ num_models)%nat ∧ length probs = num_models ∧
      Forall (λ member,
                length member = examples_in probs ∧
                Forall (λ p, length p = classes_in probs ∧ is_distribution p)
                       member)
             probs.

#[global] Instance valid_batch_dec probs num_models :
      Decision (valid_batch probs num_models).
Proof. unfold valid_batch, is_distribution. apply _. Defined.

    (** What one batch adds to the sums of the pair [(i, j)]. *)
Definition pair_contribution (probs : ProbabilityBatch) (ij : nat * nat)
        : PairSums :=
      sum_sums (zip_with contribution (probs !!! ij.1) (probs !!! ij.2)).

Definition add_batch (probs : ProbabilityBatch) (num_models : nat)
        (st : DiversityState) : result DiversityState :=
      if decide (valid_batch probs num_models) then
        OK {| examples_seen := examples_seen st + examples_in probs;
              pair_sums :=
                foldr (λ ij sums,
                         <[ij := add_sums (default no_sums (sums !! ij))
                                          (pair_contribution probs ij)]> sums)
                      (pair_sums st) (pairs num_models) |}
      else Raise (InvalidArgumentError "add_batch").

    (** One [add_batch] per batch, in order. *)
Fixpoint add_batches (batches : list ProbabilityBatch) (num_models : nat)
        (st : DiversityState) : result DiversityState :=
      match batches with
      | [] => OK st
      | probs :: rest =>
          st' ← add_batch probs num_models st; add_batches rest num_models st'
      end.

    (** The sum, over all pairs, of one of the three sums. *)
Definition total (field : PairSums → R) (st : DiversityState) : R :=
      map_fold (λ _ sums acc, field sums + acc) 0 (pair_sums st).

    (** One average over all (pair, example) contributions. *)
Definition average (field : PairSums → R) (st : DiversityState) : Scalar :=
      if decide (examples_seen st = 0%nat) then undefined
      else scalar (total field st
                   / (INR (size (pair_sums st)) * INR (examples_seen st))).

Definition result (st : DiversityState) : gmap string Scalar :=
      {[ "disagreement" := average disagreement_count st;
         "average_kl" := average kl_sum st;
         "cosine_similarity" := average cosine_sum st ]}.

End Accumulator.

  (** Two batches of one example each, and the batch of both examples,
      for an ensemble of three members over two classes. *)
Definition batch_first : ProbabilityBatch := [ [[1; 0]]; [[0; 1]]; [[1; 0]] ].
Definition batch_second : ProbabilityBatch := [ [[0; 1]]; [[0; 1]]; [[1; 0]] ].
Definition batch_both : ProbabilityBatch :=
    [ [[1; 0]; [0; 1]]; [[0; 1]; [0; 1]]; [[1; 0]; [1; 0]] ].

End diversity.

(* ===================================================================== *)
(** * Proofs *)
(* ===================================================================== *)

Import data ood_detection datasets schemas samples.
#[local] Set Warnings "-clear-no-such-hyp".

(** ** Dict comprehensions and nested structures *)

Section Comprehension.
Context {V : Type}.
Implicit Types (bodies : gmap string (result V)) (d : gmap string V).

Lemma comprehension_OK bodies d :
    comprehension bodies = OK d ↔ bodies = OK <$> d.
Proof.
    unfold comprehension. split.
    - destruct (map_to_list _) as [|[k e] l] eqn:E; [|done].
      intros [= <-]. apply map_to_list_empty_iff in E.
      apply map_eq. intros k. rewrite lookup_fmap, lookup_omap.
      pose proof (f_equal (.!! k) E) as Ek. rewrite lookup_omap, lookup_empty in Ek.
      destruct (bodies !! k) as [[v|e]|]; naive_solver.
    - intros ->.
      assert (omap raised (OK <$> d) = (∅ : gmap string exn)) as ->.
      { apply map_eq. intros k. rewrite lookup_omap, lookup_fmap, lookup_empty.
        by destruct (d !! k). }
      rewrite map_to_list_empty. f_equal.
      apply map_eq. intros k. rewrite lookup_omap, lookup_fmap.
      by destruct (d !! k).
Qed.

Lemma comprehension_Raise bodies e :
    comprehension bodies = Raise e → ∃ k, bodies !! k = Some (Raise e).
Proof.
    unfold comprehension.
    destruct (map_to_list _) as [|[k e'] l] eqn:E; [done|].
    intros [= <-]. exists k.
    assert ((k, e') ∈ map_to_list (omap raised bodies)) as Hin
      by (rewrite E; left).
    apply elem_of_map_to_list in Hin. rewrite lookup_omap in Hin.
    destruct (bodies !! k) as [[v|e]|]; naive_solver.
Qed.

Lemma comprehension_lookup bodies d k :
    comprehension bodies = OK d → bodies !! k = OK <$> d !! k.
Proof. intros ->%comprehension_OK. by rewrite lookup_fmap. Qed.
End Comprehension.

Lemma weight_lookup {T} (d : gmap string (nest T)) k v :
  d !! k = Some v → weight v < weight (Dict d).
Proof.
  intros Hk. simpl.
  rewrite <-(insert_delete_id d k v) by done.
  rewrite map_fold_insert_L.
  - lia.
  - intros. lia.
  - apply lookup_delete_eq.
Qed.

Lemma nest_ind' {T} (P : nest T → Prop) :
  (∀ t, P (Leaf t)) →
  (∀ d, map_Forall (λ _ v, P v) d → P (Dict d)) →
  ∀ x, P x.
Proof.
  intros HLeaf HDict x.
  remember (weight x) as n eqn:Hn.
  revert x Hn. induction (lt_wf n) as [n _ IH]. intros [t|d] ->.
  - apply HLeaf.
  - apply HDict. intros k v Hk.
    eapply IH; [|reflexivity]. by eapply weight_lookup.
Qed.

Lemma comprehension_fmap {V W} (h : V → W) (bodies : gmap string (result V)) :
  comprehension (fmap (M:=result) h <$> bodies)
  = fmap (M:=gmap string) h <$> comprehension bodies.
Proof.
  unfold comprehension.
  assert (omap raised (fmap (M:=result) h <$> bodies) = omap raised bodies) as ->.
  { apply map_eq. intros k. rewrite !lookup_omap, lookup_fmap.
    by destruct (bodies !! k) as [[]|]. }
  destruct (map_to_list _) as [|[k e] l]; [|done].
  simpl. f_equal. apply map_eq. intros k.
  rewrite lookup_fmap, !lookup_omap, lookup_fmap.
  by destruct (bodies !! k) as [[]|].
Qed.

Lemma map_zip_with_ext_Forall {A B C} (f g : A → B → C) (m1 : gmap string A) (m2 : gmap string B) :
  map_Forall (λ _ a, ∀ b, f a b = g a b) m1 →
  map_zip_with f m1 m2 = map_zip_with g m1 m2.
Proof.
  intros Hall. apply map_eq. intros k. rewrite !map_lookup_zip_with.
  destruct (m1 !! k) as [a|] eqn:E1; [|done]. simpl.
  destruct (m2 !! k) as [b|]; [|done]. simpl.
  f_equal. by eapply Hall.
Qed.

Section Keep.
Context {T : Type}.

Lemma keep_structure {S} (x : nest T) (s : nest S) :
    structure <$> _keep_common_fields x s
    = _keep_common_fields (structure x) (structure s).
Proof.
    revert s. induction x as [t|f IH] using nest_ind'; intros s.
    - done.
    - destruct s as [u|g]; [done|]. simpl.
      rewrite map_zip_with_fmap.
      rewrite <-(map_zip_with_ext_Forall (λ a b, structure <$> _keep_common_fields a b)).
      2:{ intros k v Hk b. by eapply IH. }
      assert (map_zip_with (λ a b, structure <$> _keep_common_fields a b) f g
              = fmap (M:=result) structure <$> map_zip_with _keep_common_fields f g) as ->.
      { apply map_eq. intros k. rewrite lookup_fmap, !map_lookup_zip_with.
        destruct (f !! k); [|done]. simpl. by destruct (g !! k). }
      rewrite comprehension_fmap.
      by destruct (comprehension _).
Qed.
End Keep.


Lemma union_swap {A} `{Countable A} (X Y Z : gset A) : X ∪ (Y ∪ Z) = Y ∪ (X ∪ Z).
Proof. by rewrite !(assoc_L (∪)), (comm_L (∪) X). Qed.

Section Schema.
Context {T : Type}.

Lemma elem_of_schema_Dict (d : gmap string (nest T)) p :
    p ∈ schema (Dict d) ↔
    ∃ k v p', p = k :: p' ∧ d !! k = Some v ∧ p' ∈ schema v.
Proof.
    simpl. induction d as [|k v d Hk IH] using map_ind.
    - rewrite map_fold_empty. split; [set_solver|].
      intros (k & v & p' & _ & Hk & _). by rewrite lookup_empty in Hk.
    - rewrite map_fold_insert_L; [|intros; apply union_swap|done].
      rewrite elem_of_union, IH, elem_of_map. split.
      + intros [(p' & -> & Hp')|(k' & v' & p' & -> & Hk' & Hp')].
        * exists k, v, p'. by rewrite lookup_insert_eq.
        * exists k', v', p'. rewrite lookup_insert_ne; [done|]. congruence.
      + intros (k' & v' & p' & -> & Hk' & Hp').
        destruct (decide (k = k')) as [<-|Hne].
        * rewrite lookup_insert_eq in Hk'. injection Hk' as <-. left. eauto.
        * rewrite lookup_insert_ne in Hk' by done. right. eauto 6.
Qed.

Lemma elem_of_schema (x : nest T) p :
    p ∈ schema x ↔ ∃ t, at_path p x = Some (Leaf t).
Proof.
    revert p. induction x as [t|d IH] using nest_ind'; intros p.
    - simpl. rewrite elem_of_singleton. split.
      + intros ->. by exists t.
      + intros [t' Hp]. by destruct p.
    - rewrite elem_of_schema_Dict. split.
      + intros (k & v & p' & -> & Hk & Hp'). simpl. rewrite Hk. simpl.
        by apply (IH k v Hk).
      + intros [t Hp]. destruct p as [|k p']; [done|]. simpl in Hp.
        destruct (d !! k) as [v|] eqn:Hk; [|done]. simpl in Hp.
        exists k, v, p'. split_and!; [done..|]. apply (IH k v Hk). eauto.
Qed.

Lemma at_path_structure (x : nest T) p :
    at_path p (structure x) = structure <$> at_path p x.
Proof.
    revert x. induction p as [|k p IH]; intros x; [done|].
    destruct x as [t|d]; [done|]. simpl. rewrite lookup_fmap.
    destruct (d !! k) as [v|]; [|done]. simpl. apply IH.
Qed.

End Schema.

Lemma schema_structure {T} (x : nest T) : schema (structure x) = schema x.
Proof.
  apply set_eq. intros p. rewrite !elem_of_schema.
  setoid_rewrite at_path_structure.
  destruct (at_path p x) as [[t|d]|]; simpl; naive_solver.
Qed.

Section KeepLookup.
Context {T S : Type}.

Lemma keep_Dict_inv (f : gmap string (nest T)) (s : nest S) y :
    _keep_common_fields (Dict f) s = OK y →
    ∃ g d, s = Dict g ∧ y = Dict d ∧
      ∀ k, map_zip_with _keep_common_fields f g !! k = OK <$> d !! k.
Proof.
    destruct s as [u|g]; [done|]. simpl.
    destruct (comprehension _) as [d|e] eqn:E; [|done].
    intros [= <-]. exists g, d. split_and!; [done..|].
    intros k. by apply comprehension_lookup.
Qed.

Lemma keep_Raise (x : nest T) (s : nest S) e :
    _keep_common_fields x s = Raise e → e = AttributeError "keys".
Proof.
    revert s. induction x as [t|f IH] using nest_ind'; intros s; [done|].
    destruct s as [u|g]; [by intros [= <-]|]. simpl.
    destruct (comprehension _) as [d|e'] eqn:E; [done|].
    intros [= ->]. apply comprehension_Raise in E as [k Hk].
    rewrite map_lookup_zip_with in Hk.
    destruct (f !! k) as [v|] eqn:Hf; [|done]. simpl in Hk.
    destruct (g !! k) as [sv|]; [|done]. simpl in Hk.
    injection Hk as Hk. by eapply IH.
Qed.
End KeepLookup.

Lemma is_Some_at_path_cons {T} (d : gmap string (nest T)) k p :
  is_Some (at_path (k :: p) (Dict d)) ↔ ∃ v, d !! k = Some v ∧ is_Some (at_path p v).
Proof.
  simpl. destruct (d !! k) as [v|]; simpl.
  - naive_solver.
  - split; [by intros []|]. by intros (v & ? & _).
Qed.

(** Filtering each side by the other, when both succeed. *)
Lemma keep_both {T S} (x : nest T) (s : nest S) y y' :
  _keep_common_fields x s = OK y →
  _keep_common_fields s x = OK y' →
  structure y = structure y' ∧
  ∀ p, is_Some (at_path p y) ↔ is_Some (at_path p x) ∧ is_Some (at_path p s).
Proof.
  revert s y y'. induction x as [t|f IH] using nest_ind'; intros s y y'.
  - intros [= <-] Hs. destruct s as [u|g]; [|done]. injection Hs as <-.
    split; [done|]. intros p. destruct p; simpl; naive_solver.
  - intros Hy Hy'.
    apply keep_Dict_inv in Hy as (g & d & -> & -> & Hd).
    apply keep_Dict_inv in Hy' as (f' & d' & [= <-] & -> & Hd').
    assert (∀ k v sv, f !! k = Some v → g !! k = Some sv →
             ∃ w w', d !! k = Some w ∧ d' !! k = Some w' ∧
               _keep_common_fields v sv = OK w ∧ _keep_common_fields sv v = OK w')
      as Hboth.
    { intros k v sv Hf Hg. specialize (Hd k). specialize (Hd' k).
      rewrite map_lookup_zip_with, Hf, Hg in Hd.
      rewrite map_lookup_zip_with, Hf, Hg in Hd'. simpl in Hd, Hd'.
      destruct (d !! k) as [w|]; [|done].
      destruct (d' !! k) as [w'|]; [|done].
      simpl in *. exists w, w'. naive_solver. }
    assert (∀ k, d !! k = None ↔ f !! k = None ∨ g !! k = None) as Hnone.
    { intros k. specialize (Hd k). rewrite map_lookup_zip_with in Hd.
      destruct (f !! k), (g !! k), (d !! k); simpl in *; naive_solver. }
    assert (∀ k, d' !! k = None ↔ f !! k = None ∨ g !! k = None) as Hnone'.
    { intros k. specialize (Hd' k). rewrite map_lookup_zip_with in Hd'.
      destruct (f !! k), (g !! k), (d' !! k); simpl in *; naive_solver. }
    split.
    + simpl. f_equal. apply map_eq. intros k. rewrite !lookup_fmap.
      destruct (f !! k) as [v|] eqn:Hf, (g !! k) as [sv|] eqn:Hg.
      * destruct (Hboth k v sv Hf Hg) as (w & w' & -> & -> & Hw & Hw').
        simpl. f_equal. by apply (IH k v Hf sv).
      * rewrite (proj2 (Hnone k)), (proj2 (Hnone' k)); auto.
      * rewrite (proj2 (Hnone k)), (proj2 (Hnone' k)); auto.
      * rewrite (proj2 (Hnone k)), (proj2 (Hnone' k)); auto.
    + intros [|k p]; [simpl; naive_solver|].
      rewrite !is_Some_at_path_cons. split.
      * intros (w & Hw & Hp).
        destruct (f !! k) as [v|] eqn:Hf;
          [|rewrite (proj2 (Hnone k)) in Hw; auto; done].
        destruct (g !! k) as [sv|] eqn:Hg;
          [|rewrite (proj2 (Hnone k)) in Hw; auto; done].
        destruct (Hboth k v sv Hf Hg) as (w1 & w' & Hw1 & _ & Hk & Hk').
        assert (w1 = w) as -> by congruence.
        apply (IH k v Hf sv w w' Hk Hk') in Hp. naive_solver.
      * intros [(v & Hf & Hv) (sv & Hg & Hsv)].
        destruct (Hboth k v sv Hf Hg) as (w & w' & Hw & _ & Hk & Hk').
        exists w. split; [done|]. apply (IH k v Hf sv w w' Hk Hk'). done.
Qed.


(** ** Relabelling *)

Section Relabel.
Context {T : Type} `{TensorLike T}.
Implicit Types feature : Features T.

Lemma constant_OK n d v : constant n d = OK v ↔ d ≠ tf_string ∧ v = cast n d.
Proof. unfold constant. case_decide; naive_solver. Qed.

Lemma tensor_ones_like_OK (t t1 : T) :
    tensor_ones_like t = OK t1 ↔
    tensor_dtype t ≠ tf_string ∧ t1 = fill_like t (cast 1 (tensor_dtype t)).
Proof.
    unfold tensor_ones_like, constant. case_decide; simpl; naive_solver.
Qed.

Lemma tensor_ones_like_Raise (t : T) e :
    tensor_ones_like t = Raise e ↔
    tensor_dtype t = tf_string ∧ e = TypeError "Expected string, got int".
Proof.
    unfold tensor_ones_like, constant. case_decide; simpl; naive_solver.
Qed.

Lemma set_label_to_one_OK feature feature' :
    _set_label_to_one feature = OK feature' ↔
    ∃ t, feature !! "label" = Some (Leaf t) ∧ tensor_dtype t ≠ tf_string ∧
         feature' = <["label" := Leaf (fill_like t (cast 1 (tensor_dtype t)))]>
                      feature.
Proof.
    unfold _set_label_to_one.
    destruct (feature !! "label") as [[t|d]|]; simpl; [|naive_solver..].
    destruct (tensor_ones_like t) as [t1|e] eqn:E; simpl.
    - apply tensor_ones_like_OK in E as [? ->]. naive_solver.
    - apply tensor_ones_like_Raise in E as [? ->]. naive_solver.
Qed.

Lemma set_label_to_zero_OK feature feature' :
    _set_label_to_zero feature = OK feature' ↔
    ∃ t, feature !! "label" = Some (Leaf t) ∧
         feature' = <["label" := Leaf (tensor_zeros_like t)]> feature.
Proof.
    unfold _set_label_to_zero.
    destruct (feature !! "label") as [[t|d]|]; simpl; naive_solver.
Qed.

  (** What [_set_label_to_one] raises, and when. *)
Lemma set_label_to_one_Raise feature e :
    _set_label_to_one feature = Raise e ↔
    match feature !! "label" with
    | None => e = KeyError "label"
    | Some (Dict _) => e = not_a_tensor T
    | Some (Leaf t) =>
        tensor_dtype t = tf_string ∧
        e = TypeError "Expected string, got int"
    end.
Proof.
    unfold _set_label_to_one.
    destruct (feature !! "label") as [[t|d]|]; simpl; [|naive_solver..].
    destruct (tensor_ones_like t) as [t1|e'] eqn:E; simpl.
    - apply tensor_ones_like_OK in E as [? ->]. naive_solver.
    - apply tensor_ones_like_Raise in E as [? ->]. naive_solver.
Qed.

Lemma set_label_to_zero_Raise feature e :
    _set_label_to_zero feature = Raise e ↔
    match feature !! "label" with
    | None => e = KeyError "label"
    | Some (Dict _) => e = not_a_tensor T
    | Some (Leaf t) => False
    end.
Proof.
    unfold _set_label_to_zero.
    destruct (feature !! "label") as [[t|d]|]; simpl; naive_solver.
Qed.

Lemma structure_insert_leaf feature t t' :
    feature !! "label" = Some (Leaf t) →
    structure (Dict (<["label" := Leaf t']> feature)) = structure (Dict feature).
Proof.
    intros Hl. simpl. f_equal. rewrite fmap_insert. apply insert_id.
    by rewrite lookup_fmap, Hl.
Qed.

Lemma structure_dtypes (x : nest T) : structure (dtypes x) = structure x.
Proof.
    induction x as [t|d IH] using nest_ind'; [done|]. simpl. f_equal.
    rewrite <-map_fmap_compose. apply map_fmap_ext. intros k v Hk.
    by apply (IH k v Hk).
Qed.
End Relabel.

Lemma structure_Dict_lookup {T S} (x : Features T) (s : Features S) k :
  structure (Dict x) = structure (Dict s) →
  structure <$> x !! k = structure <$> s !! k.
Proof. intros [= Heq]. by rewrite <-!lookup_fmap, Heq. Qed.

Lemma structure_leaf_lookup {T S} (x : Features T) (s : Features S) k u :
  structure (Dict x) = structure (Dict s) →
  s !! k = Some (Leaf u) → ∃ t, x !! k = Some (Leaf t).
Proof.
  intros Heq Hs. apply (structure_Dict_lookup _ _ k) in Heq.
  rewrite Hs in Heq. destruct (x !! k) as [[t|d]|]; naive_solver.
Qed.

(** An element of a spec is nested as the spec is. *)
Lemma dtypes_structure {T S} `{TensorLike T} `{TensorLike S}
    (x : nest T) (s : nest S) :
  dtypes x = dtypes s → structure x = structure s.
Proof.
  intros Heq. by rewrite <-(structure_dtypes x), Heq, structure_dtypes.
Qed.

Lemma dtypes_leaf_lookup {T S} `{TensorLike T} `{TensorLike S}
    (x : Features T) (s : Features S) k u :
  dtypes (Dict x) = dtypes (Dict s) →
  s !! k = Some (Leaf u) →
  ∃ t, x !! k = Some (Leaf t) ∧ tensor_dtype t = tensor_dtype u.
Proof.
  intros [= Heq] Hs. pose proof (f_equal (.!! k) Heq) as Hk.
  rewrite !lookup_fmap, Hs in Hk.
  destruct (x !! k) as [[t|d]|]; simpl in Hk; [|done..].
  injection Hk as Hk. eauto.
Qed.

(** ** The tensors of a structure *)

Lemma elem_of_flatten_Dict {T} (d : gmap string (nest T)) t :
  t ∈ flatten (Dict d) ↔ ∃ k v, d !! k = Some v ∧ t ∈ flatten v.
Proof.
  simpl. rewrite map_fold_foldr.
  assert (∀ l : list (string * nest T),
            t ∈ foldr (uncurry (λ _ v acc, flatten v ++ acc)%list) [] l ↔
            ∃ k v, (k, v) ∈ l ∧ t ∈ flatten v) as Hl.
  { induction l as [|[k v] l IH]; simpl.
    - split; [by intros ?%elem_of_nil|]. by intros (? & ? & ?%elem_of_nil & _).
    - rewrite elem_of_app, IH. split.
      + intros [Hv|(k' & v' & Hin & Hv)].
        * exists k, v. split; [left|done].
        * exists k', v'. split; [by right|done].
      + intros (k' & v' & Hin & Hv).
        apply elem_of_cons in Hin as [[= -> ->]|Hin]; [by left|].
        right. eauto. }
  rewrite Hl. by setoid_rewrite elem_of_map_to_list.
Qed.

Lemma elem_of_flatten {T} (x : nest T) t :
  t ∈ flatten x ↔ ∃ p, at_path p x = Some (Leaf t).
Proof.
  induction x as [u|d IH] using nest_ind'.
  - simpl. rewrite list_elem_of_singleton. split.
    + intros ->. by exists [].
    + intros [[|k p] Hp]; [|done]. by injection Hp as ->.
  - rewrite elem_of_flatten_Dict. split.
    + intros (k & v & Hk & Hv). apply (IH k v Hk) in Hv as [p Hp].
      exists (k :: p). simpl. by rewrite Hk.
    + intros [[|k p] Hp]; [done|]. simpl in Hp.
      destruct (d !! k) as [v|] eqn:Hk; [|done]. simpl in Hp.
      exists k, v. split; [done|]. apply (IH k v Hk). eauto.
Qed.

(** A structure has a tensor as soon as a path leads to one. *)
Lemma flatten_not_nil {T} (x : nest T) p t :
  at_path p x = Some (Leaf t) → flatten x ≠ [].
Proof.
  intros Hp Hnil. assert (t ∈ flatten x) as Hin by (apply elem_of_flatten; eauto).
  rewrite Hnil in Hin. by apply elem_of_nil in Hin.
Qed.

Lemma flatten_nil {T} (x : nest T) :
  flatten x = [] ↔ ∀ p t, at_path p x ≠ Some (Leaf t).
Proof.
  split.
  - intros Hnil p t Hp. by eapply flatten_not_nil.
  - intros Hno. destruct (flatten x) as [|t l] eqn:E; [done|].
    assert (t ∈ flatten x) as [p Hp]%elem_of_flatten by (rewrite E; left).
    by destruct (Hno p t).
Qed.

(** A filter that succeeds on one structure succeeds on every structure
    nested in the same way, with a value nested as the first one's. *)
Lemma keep_same_structure {T T' S} (x : nest T) (x' : nest T') (s : nest S) y :
  structure x' = structure x →
  _keep_common_fields x s = OK y →
  ∃ y', _keep_common_fields x' s = OK y' ∧ structure y' = structure y.
Proof.
  intros Hx Hy.
  pose proof (keep_structure x' s) as E'. pose proof (keep_structure x s) as E.
  rewrite Hx, <-E, Hy in E'.
  destruct (_keep_common_fields x' s) as [y'|]; [|done].
  injection E' as E'. eauto.
Qed.

Lemma keep_label_leaf {T S} (f : Features T) (g : Features S) d t :
  _keep_common_fields (Dict f) (Dict g) = OK (Dict d) →
  f !! "label" = Some (Leaf t) → is_Some (g !! "label") →
  d !! "label" = Some (Leaf t).
Proof.
  intros (g' & d' & [= <-] & [= <-] & Hd)%keep_Dict_inv Hf [sv Hg].
  specialize (Hd "label"). rewrite map_lookup_zip_with, Hf, Hg in Hd.
  simpl in Hd. destruct (d !! "label"); naive_solver.
Qed.

(** ** The two mapped functions *)

Section Format.
Implicit Types in_spec out_spec : Features TensorSpec.

Lemma format_in_ds_trace in_spec out_spec sa :
    format_in_ds out_spec TensorSpec _ in_spec = OK sa ↔
    (∃ l, in_spec !! "label" = Some (Leaf l) ∧ spec_dtype l ≠ tf_string) ∧
    _keep_common_fields (Dict in_spec) (Dict out_spec) = OK sa.
Proof.
    unfold format_in_ds.
    destruct (_set_label_to_one in_spec) as [s'|e] eqn:E.
    - apply set_label_to_one_OK in E as (l & Hl & Hd & ->). simpl.
      rewrite (insert_id _ _ _ Hl). change (Py.bind (OK in_spec) ?k) with (k in_spec).
      naive_solver.
    - split; [done|]. intros [(l & Hl & Hd) _].
      assert (∃ s', _set_label_to_one in_spec = OK s') as [s' Hs']
        by (eexists; apply set_label_to_one_OK; eauto).
      congruence.
Qed.

Lemma format_out_ds_trace in_spec out_spec sb :
    format_out_ds in_spec TensorSpec _ out_spec = OK sb ↔
    (∃ l, out_spec !! "label" = Some (Leaf l)) ∧
    _keep_common_fields (Dict out_spec) (Dict in_spec) = OK sb.
Proof.
    unfold format_out_ds.
    destruct (_set_label_to_zero out_spec) as [s'|e] eqn:E.
    - apply set_label_to_zero_OK in E as (l & Hl & ->). simpl.
      rewrite (insert_id _ _ _ Hl). change (Py.bind (OK out_spec) ?k) with (k out_spec).
      naive_solver.
    - split; [done|]. intros [[l Hl] _].
      unfold _set_label_to_zero in E. by rewrite Hl in E.
Qed.

  (** Running the traced function on an element of the spec. *)
Lemma format_in_ds_element in_spec out_spec sa (x : Features Tensor) :
    format_in_ds out_spec TensorSpec _ in_spec = OK sa →
    is_Some (out_spec !! "label") →
    dtypes (Dict x) = dtypes (Dict in_spec) →
    ∃ d l, x !! "label" = Some (Leaf l) ∧ dtype l ≠ tf_string ∧
      format_in_ds out_spec Tensor _ x = OK (Dict d) ∧
      d !! "label" = Some (Leaf (fill (shape l) (dtype l) (cast 1 (dtype l)))) ∧
      structure (Dict d) = structure sa.
Proof.
    intros [(u & Hu & Hdt) Hkeep]%format_in_ds_trace Hout Hx.
    destruct (dtypes_leaf_lookup _ _ _ _ Hx Hu) as (l & Hl & Hdl).
    simpl in Hdl. rewrite <-Hdl in Hdt.
    set (x' := <["label" := Leaf (fill (shape l) (dtype l) (cast 1 (dtype l)))]> x).
    assert (_set_label_to_one x = OK x') as Hset
      by (apply set_label_to_one_OK; eauto).
    assert (structure (Dict x') = structure (Dict in_spec)) as Hx'.
    { unfold x'. erewrite structure_insert_leaf by done.
      by apply dtypes_structure. }
    destruct (keep_same_structure _ _ _ _ Hx' Hkeep) as (y & Hy & Hsy).
    destruct (keep_Dict_inv _ _ _ Hy) as (g & d & _ & -> & _).
    exists d, l. split_and!; [done..| | |done].
    - unfold format_in_ds. by rewrite Hset.
    - eapply keep_label_leaf; [done| |done]. unfold x'. apply lookup_insert_eq.
Qed.

Lemma format_out_ds_element in_spec out_spec sb (x : Features Tensor) :
    format_out_ds in_spec TensorSpec _ out_spec = OK sb →
    is_Some (in_spec !! "label") →
    dtypes (Dict x) = dtypes (Dict out_spec) →
    ∃ d l u, x !! "label" = Some (Leaf l) ∧
      out_spec !! "label" = Some (Leaf u) ∧ dtype l = spec_dtype u ∧
      format_out_ds in_spec Tensor _ x = OK (Dict d) ∧
      d !! "label" = Some (Leaf (tensor_zeros_like l)) ∧
      structure (Dict d) = structure sb.
Proof.
    intros [[u Hu] Hkeep]%format_out_ds_trace Hin Hx.
    destruct (dtypes_leaf_lookup _ _ _ _ Hx Hu) as (l & Hl & Hdl).
    set (x' := <["label" := Leaf (tensor_zeros_like l)]> x).
    assert (_set_label_to_zero x = OK x') as Hset
      by (apply set_label_to_zero_OK; eauto).
    assert (structure (Dict x') = structure (Dict out_spec)) as Hx'.
    { unfold x'. erewrite structure_insert_leaf by done.
      by apply dtypes_structure. }
    destruct (keep_same_structure _ _ _ _ Hx' Hkeep) as (y & Hy & Hsy).
    destruct (keep_Dict_inv _ _ _ Hy) as (g & d & _ & -> & _).
    exists d, l, u. split_and!; [done..| | |done].
    - unfold format_out_ds. by rewrite Hset.
    - eapply keep_label_leaf; [done| |done]. unfold x'. apply lookup_insert_eq.
Qed.
End Format.

(** ** Reading mapped and concatenated datasets *)

Section Reading.

Lemma read_length {X} (ds : Dataset X) n s : (length (read ds n s).1 ≤ n)%nat.
Proof.
    revert s. induction n as [|n IH]; intros s; simpl; [done|].
    destruct (get_next ds s) as [[r s']|]; simpl; [|lia].
    specialize (IH s'). destruct (read ds n s'). simpl in *. lia.
Qed.

Lemma read_reachable {X} (ds : Dataset X) n s :
    reachable ds s → reachable ds (read ds n s).2.
Proof.
    revert s. induction n as [|n IH]; intros s Hs; simpl; [done|].
    destruct (get_next ds s) as [[r s']|] eqn:E; simpl; [|done].
    specialize (IH s' (reachable_next _ _ _ _ Hs E)).
    by destruct (read ds n s').
Qed.

Lemma read_well_formed ds n s :
    well_formed ds → reachable ds s →
    Forall (λ r, ∃ x, r = OK x ∧
                 dtypes (Dict x) = dtypes (Dict (element_spec ds)))
           (read ds n s).1.
Proof.
    intros Hwf. revert s. induction n as [|n IH]; intros s Hs; simpl; [done|].
    destruct (get_next ds s) as [[r s']|] eqn:E; simpl; [|done].
    specialize (IH s' (reachable_next _ _ _ _ Hs E)).
    destruct (read ds n s'). simpl in *. constructor; [|done].
    by eapply Hwf.
Qed.

Lemma read_mapped {X Y} (f : PyFunction X Y) (ds : Dataset X) spec n s :
    read (mapped f ds spec) n s
    = ((λ r, r ≫= f Tensor _) <$> (read ds n s).1, (read ds n s).2).
Proof.
    revert s. induction n as [|n IH]; intros s; simpl; [done|].
    destruct (get_next ds s) as [[r s']|]; simpl; [|done].
    rewrite IH. by destruct (read ds n s').
Qed.

Lemma read_concatenated_inr (a b : Dataset nest) spec n sb :
    read (concatenated a b spec) n (inr sb)
    = ((read b n sb).1, inr (read b n sb).2).
Proof.
    revert sb. induction n as [|n IH]; intros sb; simpl; [done|].
    destruct (get_next b sb) as [[r sb']|]; simpl; [|done].
    rewrite IH. by destruct (read b n sb').
Qed.

  (** While the first dataset gives elements, the iterator of the
      concatenation is an iterator on the first dataset. *)
Lemma read_concatenated_first (a b : Dataset nest) spec n sa :
    length (read a n sa).1 = n →
    read (concatenated a b spec) n (inl sa)
    = ((read a n sa).1, inl (read a n sa).2).
Proof.
    revert sa. induction n as [|n IH]; intros sa; simpl; [done|].
    destruct (get_next a sa) as [[r sa']|]; simpl; [|done].
    specialize (IH sa'). destruct (read a n sa') as [rs sa'']. simpl in *.
    intros [= Hlen]. by rewrite IH.
Qed.

Lemma read_concatenated_inl (a b : Dataset nest) spec n sa :
    (read (concatenated a b spec) n (inl sa)).1
    = ((read a n sa).1
      ++ (read b (n - length (read a n sa).1) (make_iterator b)).1)%list.
Proof.
    revert sa. induction n as [|n IH]; intros sa; simpl; [done|].
    destruct (get_next a sa) as [[r sa']|] eqn:Ea; simpl.
    - specialize (IH sa').
      destruct (read (concatenated a b spec) n (inl sa')) as [rs s''].
      destruct (read a n sa') as [ra sa'']. simpl in *. by rewrite IH.
    - destruct (get_next b (make_iterator b)) as [[r sb']|]; simpl; [|done].
      rewrite read_concatenated_inr. simpl.
      by destruct (read b n sb').
Qed.

Lemma take_concatenated (a b : Dataset nest) spec n :
    take n (concatenated a b spec)
    = (take n a ++ take (n - length (take n a)) b)%list.
Proof. apply read_concatenated_inl. Qed.

Lemma take_mapped {X Y} (f : PyFunction X Y) (ds : Dataset X) spec n :
    take n (mapped f ds spec) = (λ r, r ≫= f Tensor _) <$> take n ds.
Proof. unfold take. by rewrite read_mapped. Qed.

End Reading.


(** ** What a successful composition went through *)

Lemma map_OK {X} (f : PyFunction X nest) (ds : Dataset X) ds' :
  data.map f ds = OK ds' ↔
  ∃ spec, f TensorSpec _ (element_spec ds) = OK spec ∧ flatten spec ≠ [] ∧
          ds' = mapped f ds spec.
Proof.
  unfold data.map. destruct (f TensorSpec _ _) as [spec|e]; simpl.
  - case_decide; naive_solver.
  - naive_solver.
Qed.

Lemma map_Raise {X} (f : PyFunction X nest) (ds : Dataset X) e :
  data.map f ds = Raise e ↔
  f TensorSpec _ (element_spec ds) = Raise e ∨
  ∃ spec, f TensorSpec _ (element_spec ds) = OK spec ∧ flatten spec = [] ∧
          e = no_output.
Proof.
  unfold data.map. destruct (f TensorSpec _ _) as [spec|e']; simpl.
  - case_decide; naive_solver.
  - naive_solver.
Qed.

Lemma concatenate_OK in_ds out_ds ds :
  _concatenate in_ds out_ds = OK ds ↔
  ∃ sa sb spec,
    format_in_ds (element_spec out_ds) TensorSpec _ (element_spec in_ds) = OK sa ∧
    format_out_ds (element_spec in_ds) TensorSpec _ (element_spec out_ds) = OK sb ∧
    common_spec sa sb = OK spec ∧
    ds = concatenated (mapped (format_in_ds (element_spec out_ds)) in_ds sa)
                      (mapped (format_out_ds (element_spec in_ds)) out_ds sb)
                      spec ∧
    flatten sa ≠ [] ∧ flatten sb ≠ [].
Proof.
  unfold _concatenate, concatenate. cbv zeta.
  destruct (data.map (format_in_ds _) in_ds) as [a|ea] eqn:Ea; simpl.
  2:{ split; [done|]. intros (sa & sb & spec & Ha & _ & _ & _ & Hsa & _).
      assert (data.map (format_in_ds (element_spec out_ds)) in_ds
              = OK (mapped (format_in_ds (element_spec out_ds)) in_ds sa))
        by (apply map_OK; eauto).
      congruence. }
  apply map_OK in Ea as (sa & Ha & Hsa & ->).
  destruct (data.map (format_out_ds _) out_ds) as [b|eb] eqn:Eb; simpl.
  2:{ split; [done|]. intros (sa' & sb & spec & _ & Hb & _ & _ & _ & Hsb).
      assert (data.map (format_out_ds (element_spec in_ds)) out_ds
              = OK (mapped (format_out_ds (element_spec in_ds)) out_ds sb))
        by (apply map_OK; eauto).
      congruence. }
  apply map_OK in Eb as (sb & Hb & Hsb & ->). simpl.
  destruct (common_spec sa sb) as [spec|] eqn:E; simpl.
  - split.
    + intros [= <-]. eauto 10.
    + intros (sa' & sb' & spec' & Ha' & Hb' & E' & -> & _).
      rewrite Ha in Ha'. rewrite Hb in Hb'.
      injection Ha' as <-. injection Hb' as <-.
      rewrite E in E'. by injection E' as <-.
  - split; [done|]. intros (sa' & sb' & spec' & Ha' & Hb' & E' & _).
    rewrite Ha in Ha'. rewrite Hb in Hb'.
    injection Ha' as <-. injection Hb' as <-. by rewrite E in E'.
Qed.


(** What a failed composition went through: the first of the five steps
    that raises. *)
Lemma concatenate_Raise in_ds out_ds e :
  _concatenate in_ds out_ds = Raise e ↔
  format_in_ds (element_spec out_ds) TensorSpec _ (element_spec in_ds) = Raise e ∨
  ∃ sa,
    format_in_ds (element_spec out_ds) TensorSpec _ (element_spec in_ds) = OK sa ∧
    (flatten sa = [] ∧ e = no_output ∨
     flatten sa ≠ [] ∧
     (format_out_ds (element_spec in_ds) TensorSpec _ (element_spec out_ds)
        = Raise e ∨
      ∃ sb,
        format_out_ds (element_spec in_ds) TensorSpec _ (element_spec out_ds)
          = OK sb ∧
        (flatten sb = [] ∧ e = no_output ∨
         flatten sb ≠ [] ∧ common_spec sa sb = Raise e))).
Proof.
  unfold _concatenate, concatenate. cbv zeta.
  destruct (data.map (format_in_ds _) in_ds) as [a|ea] eqn:Ea; simpl.
  2:{ apply map_Raise in Ea as [Ea|(sa & Ea & Hsa & ->)]; rewrite Ea.
      - split; [intros [= ->]; by left|]. intros [[= ->]|(sa & ? & _)]; done.
      - split; [intros [= <-]; right; exists sa; eauto|].
        intros [?|(sa' & [= <-] & [[_ ->]|[? _]])]; done. }
  apply map_OK in Ea as (sa & Ha & Hsa & ->). rewrite Ha.
  destruct (data.map (format_out_ds _) out_ds) as [b|eb] eqn:Eb; simpl.
  2:{ apply map_Raise in Eb as [Eb|(sb & Eb & Hsb & ->)]; rewrite Eb.
      - split.
        + intros [= ->]. right. exists sa. eauto.
        + intros [?|(sa' & [= <-] & [[? _]|[_ [[= ->]|(sb & ? & _)]]])]; done.
      - split.
        + intros [= <-]. right. exists sa. split; [done|]. right.
          split; [done|]. right. exists sb. eauto.
        + intros [?|(sa' & [= <-] & [[? _]|[_ [?|(sb' & [= <-] & Hc)]]])];
            try done.
          by destruct Hc as [[_ ->]|[? _]]. }
  apply map_OK in Eb as (sb & Hb & Hsb & ->). rewrite Hb. simpl.
  destruct (common_spec sa sb) as [spec|ec] eqn:E; simpl.
  - split; [intros [=]|].
    intros [?|(sa' & [= <-] & [[? _]|[_ [?|(sb' & [= <-] & Hc)]]])]; try done.
    destruct Hc as [[? _]|[_ ?]]; [done|congruence].
  - split.
    + intros [= ->]. right. exists sa. split; [done|]. right.
      split; [done|]. right. exists sb. eauto.
    + intros [?|(sa' & [= <-] & [[? _]|[_ [?|(sb' & [= <-] & Hc)]]])];
        try done.
      destruct Hc as [[? _]|[_ ?]]; [done|congruence].
Qed.


(** The leaves that survive when each side is filtered by the other are the
    leaves the two sides share. *)
Lemma keep_both_schema {T S} (x : nest T) (s : nest S) y y' :
  _keep_common_fields x s = OK y →
  _keep_common_fields s x = OK y' →
  schema y = schema x ∩ schema s.
Proof.
  revert s y y'. induction x as [t|f IH] using nest_ind'; intros s y y'.
  - intros [= <-] Hs. destruct s as [u|g]; [|done]. simpl. set_solver.
  - intros Hy Hy'.
    apply keep_Dict_inv in Hy as (g & d & -> & -> & Hd).
    apply keep_Dict_inv in Hy' as (f' & d' & [= <-] & -> & Hd').
    apply set_eq. intros p.
    rewrite elem_of_intersection, !elem_of_schema_Dict. split.
    + intros (k & w & p' & -> & Hw & Hp').
      specialize (Hd k). specialize (Hd' k).
      rewrite map_lookup_zip_with in Hd. rewrite map_lookup_zip_with in Hd'.
      rewrite Hw in Hd.
      destruct (f !! k) as [v|] eqn:Hf; [|done].
      destruct (g !! k) as [sv|] eqn:Hg; [|done].
      simpl in Hd, Hd'. injection Hd as Hd.
      destruct (d' !! k) as [w'|]; [|done]. injection Hd' as Hd'.
      rewrite (IH k v Hf sv w w' Hd Hd') in Hp'.
      apply elem_of_intersection in Hp' as [??].
      split; [by exists k, v, p'|by exists k, sv, p'].
    + intros [(k & v & p' & -> & Hf & Hv) (k' & sv & p'' & [= <- <-] & Hg & Hsv)].
      specialize (Hd k). specialize (Hd' k).
      rewrite map_lookup_zip_with in Hd. rewrite map_lookup_zip_with in Hd'.
      rewrite Hf, Hg in Hd. rewrite Hf, Hg in Hd'. simpl in Hd, Hd'.
      destruct (d !! k) as [w|] eqn:Hw; [|done]. injection Hd as Hd.
      destruct (d' !! k) as [w'|]; [|done]. injection Hd' as Hd'.
      exists k, w, p'. split_and!; [done..|].
      rewrite (IH k v Hf sv w w' Hd Hd'). by apply elem_of_intersection.
Qed.

Lemma at_path_same_structure {T T'} (x : nest T) (x' : nest T') p :
  structure x = structure x' →
  is_Some (at_path p x) ↔ is_Some (at_path p x').
Proof.
  intros Heq.
  rewrite <-(fmap_is_Some structure (at_path p x)), <-at_path_structure, Heq.
  by rewrite at_path_structure, fmap_is_Some.
Qed.

Lemma schema_same_structure {T T'} (x : nest T) (x' : nest T') :
  structure x = structure x' → schema x = schema x'.
Proof. intros Heq. by rewrite <-(schema_structure x), Heq, schema_structure. Qed.

(** ** Datasets made from lists *)

Lemma from_list_reachable {X} (spec : X TensorSpec) (l : list (X Tensor)) :
  ∀ s, reachable (from_list spec l) s → ∃ pre, l = (pre ++ s)%list.
Proof.
  intros s Hs. induction Hs as [|s r s' _ [pre Hl] Hnext].
  - by exists [].
  - simpl in Hnext. destruct s as [|x s]; [done|]. injection Hnext as <- <-.
    exists (pre ++ [x])%list. by rewrite Hl, <-app_assoc.
Qed.

Lemma from_list_well_formed spec l :
  Forall (λ x, dtypes (Dict x) = dtypes (Dict spec)) l →
  well_formed (from_list (X := λ T, Features T) spec l).
Proof.
  intros Hall s r s' [pre Hl]%from_list_reachable Hnext.
  simpl in Hnext. destruct s as [|x s]; [done|]. injection Hnext as <- <-.
  exists x. split; [done|]. rewrite Hl in Hall.
  apply Forall_app in Hall as [_ Hall]. by apply Forall_cons in Hall as [? _].
Qed.

Lemma read_from_list {X} (spec : X TensorSpec) (l0 l : list (X Tensor)) n :
  read (from_list spec l0) n l = (OK <$> firstn n l, skipn n l).
Proof.
  revert l. induction n as [|n IH]; intros [|x l]; simpl; try done.
  by rewrite IH.
Qed.

Lemma take_from_list {X} (spec : X TensorSpec) (l : list (X Tensor)) n :
  take n (from_list spec l) = OK <$> firstn n l.
Proof. unfold take. simpl. by rewrite read_from_list. Qed.

(** ** Every record of a composition *)

Lemma fill_filled_with sh d n : filled_with n (fill sh d (cast n d)).
Proof.
  split; simpl.
  - apply Forall_replicate. unfold cast. destruct (is_floating d); simpl.
    + apply Qeq_bool_iff. reflexivity.
    + apply Z.eqb_refl.
  - apply length_replicate.
Qed.

Lemma tensor_zeros_like_fill (l : Tensor) :
  dtype l ≠ tf_string →
  tensor_zeros_like l = fill (shape l) (dtype l) (cast 0 (dtype l)).
Proof.
  intros Hd. unfold tensor_zeros_like, zero. simpl. by rewrite decide_False.
Qed.

(** The specs of a concatenation agree on the dtype of every field. *)
Lemma common_spec_leaf_lookup (da db : Features TensorSpec) spec k a b :
  common_spec (Dict da) (Dict db) = OK spec →
  da !! k = Some (Leaf a) → db !! k = Some (Leaf b) →
  spec_dtype a = spec_dtype b.
Proof.
  simpl. case_decide; [|done].
  destruct (comprehension _) as [d|] eqn:E; [|done]. intros _ Ha Hb.
  pose proof (comprehension_lookup _ _ k E) as Hk.
  rewrite map_lookup_zip_with, Ha, Hb in Hk. simpl in Hk.
  case_decide; [done|]. by destruct (d !! k).
Qed.

Section Composition.
Variables in_ds out_ds : Dataset (λ T, Features T).
Variable ds : Dataset nest.
Hypothesis Hin : well_formed in_ds.
Hypothesis Hout : well_formed out_ds.
Hypothesis Hds : _concatenate in_ds out_ds = OK ds.

Let in_spec := element_spec in_ds.
Let out_spec := element_spec out_ds.

Lemma composed_in_label :
    ∃ l, in_spec !! "label" = Some (Leaf l) ∧ spec_dtype l ≠ tf_string.
Proof.
    apply concatenate_OK in Hds as (sa & sb & spec & Ha & _).
    by apply format_in_ds_trace in Ha as [? _].
Qed.

Lemma composed_out_label :
    ∃ l, out_spec !! "label" = Some (Leaf l) ∧ spec_dtype l ≠ tf_string.
Proof.
    apply concatenate_OK in Hds as (sa & sb & spec & Ha & Hb & Hc & _).
    apply format_in_ds_trace in Ha as [(li & Hli & Hdt) Ha].
    apply format_out_ds_trace in Hb as [[lo Hlo] Hb].
    exists lo. split; [done|].
    destruct (keep_Dict_inv _ _ _ Ha) as (? & da & _ & -> & _).
    destruct (keep_Dict_inv _ _ _ Hb) as (? & db & _ & -> & _).
    rewrite <-(common_spec_leaf_lookup da db spec "label" li lo); [done..| |].
    - eapply keep_label_leaf; [done..|]. by rewrite Hlo.
    - eapply keep_label_leaf; [done..|]. by rewrite Hli.
Qed.

Lemma composed_take n :
    take n ds
    = (((λ r, r ≫= format_in_ds out_spec Tensor _) <$> take n in_ds)
       ++ ((λ r, r ≫= format_out_ds in_spec Tensor _)
             <$> take (n - length (take n in_ds)) out_ds))%list.
Proof.
    apply concatenate_OK in Hds as (sa & sb & spec & _ & _ & _ & -> & _).
    rewrite take_concatenated, !take_mapped. by rewrite length_fmap.
Qed.

  (** The records that come from the in-distribution source. *)
Lemma composed_in_records n sa :
    format_in_ds out_spec TensorSpec _ in_spec = OK sa →
    Forall (λ r, ∃ x d l, r = OK x ∧ x !! "label" = Some (Leaf l) ∧
              dtype l ≠ tf_string ∧
              format_in_ds out_spec Tensor _ x = OK (Dict d) ∧
              d !! "label"
                = Some (Leaf (fill (shape l) (dtype l) (cast 1 (dtype l)))) ∧
              structure (Dict d) = structure sa)
           (take n in_ds).
Proof.
    intros Ha. destruct composed_out_label as (lo & Hlo & _).
    eapply Forall_impl; [apply read_well_formed; [done|constructor]|].
    intros r (x & -> & Hx). simpl.
    destruct (format_in_ds_element _ _ _ x Ha) as (d & l & ? & ? & ? & ? & ?);
      [by rewrite Hlo|done|].
    by exists x, d, l.
Qed.

  (** The records that come from the out-of-distribution source. *)
Lemma composed_out_records n sb :
    format_out_ds in_spec TensorSpec _ out_spec = OK sb →
    Forall (λ r, ∃ x d l, r = OK x ∧ x !! "label" = Some (Leaf l) ∧
              dtype l ≠ tf_string ∧
              format_out_ds in_spec Tensor _ x = OK (Dict d) ∧
              d !! "label" = Some (Leaf (tensor_zeros_like l)) ∧
              structure (Dict d) = structure sb)
           (take n out_ds).
Proof.
    intros Hb. destruct composed_in_label as (li & Hli & _).
    destruct composed_out_label as (lo & Hlo & Hdt).
    eapply Forall_impl; [apply read_well_formed; [done|constructor]|].
    intros r (x & -> & Hx). simpl.
    destruct (format_out_ds_element _ _ _ x Hb)
      as (d & l & u & ? & Hu & Hd & ? & ? & ?); [by rewrite Hli|done|].
    exists x, d, l. split_and!; [done..| |done|done|done].
    rewrite Hd. fold out_spec in Hlo. rewrite Hlo in Hu. by injection Hu as <-.
Qed.

  (** Every record read from the composition: which source it came from,
      and what was made of it. *)
Lemma composed_record n i r :
    take n ds !! i = Some r →
    ∃ x d l sa sb,
      format_in_ds out_spec TensorSpec _ in_spec = OK sa ∧
      format_out_ds in_spec TensorSpec _ out_spec = OK sb ∧
      r = OK (Dict d) ∧ x !! "label" = Some (Leaf l) ∧
      dtype l ≠ tf_string ∧
      structure (Dict d) = structure sa ∧
      if decide (i < length (take n in_ds))%nat
      then take n in_ds !! i = Some (OK x) ∧
           d !! "label"
             = Some (Leaf (fill (shape l) (dtype l) (cast 1 (dtype l))))
      else take (n - length (take n in_ds)) out_ds
             !! (i - length (take n in_ds))%nat = Some (OK x) ∧
           d !! "label"
             = Some (Leaf (fill (shape l) (dtype l) (cast 0 (dtype l)))).
Proof.
    rewrite composed_take. intros Hr.
    pose proof Hds as (sa & sb & spec & Ha & Hb & _)%concatenate_OK.
    pose proof (composed_in_records n sa Ha) as Hins.
    pose proof (composed_out_records (n - length (take n in_ds)) sb Hb) as Houts.
    assert (structure sb = structure sa) as Hsab.
    { apply format_in_ds_trace in Ha as [_ Ha].
      apply format_out_ds_trace in Hb as [_ Hb].
      symmetry. by eapply keep_both. }
    destruct (decide (i < length (take n in_ds))%nat) as [Hlt|Hge].
    - rewrite lookup_app_l in Hr by (by rewrite length_fmap).
      apply list_lookup_fmap_Some in Hr as (r0 & -> & Hr0).
      rewrite Forall_lookup in Hins.
      destruct (Hins i r0 Hr0) as (x & d & l & -> & Hl & Hdt & Hf & Hd & Hs).
      exists x, d, l, sa, sb. by rewrite <-Hf.
    - rewrite lookup_app_r in Hr by (rewrite length_fmap; lia).
      rewrite length_fmap in Hr.
      apply list_lookup_fmap_Some in Hr as (r0 & -> & Hr0).
      rewrite Forall_lookup in Houts.
      destruct (Houts _ r0 Hr0) as (x & d & l & -> & Hl & Hdt & Hf & Hd & Hs).
      exists x, d, l, sa, sb.
      rewrite <-Hf, Hs, Hsab, <-(tensor_zeros_like_fill l Hdt). done.
Qed.
End Composition.


(* ===================================================================== *)
(** * The sample sources *)
(* ===================================================================== *)

Ltac records_of_spec :=
  apply from_list_well_formed;
  repeat (constructor; [vm_compute; reflexivity|]); constructor.

Lemma in_x_label_well_formed : well_formed in_x_label.
Proof. records_of_spec. Qed.

Lemma out_x_y_label_well_formed : well_formed out_x_y_label.
Proof. records_of_spec. Qed.

Lemma in_nested_well_formed : well_formed in_nested.
Proof. records_of_spec. Qed.

Lemma out_nested_well_formed : well_formed out_nested.
Proof. records_of_spec. Qed.

Lemma composed_x_label_OK :
  _concatenate in_x_label out_x_y_label = OK composed_x_label.
Proof.
  apply concatenate_OK. eexists _, _, _.
  split_and!; [vm_compute; reflexivity..|reflexivity| |]; by vm_compute.
Qed.

Lemma composed_nested_OK :
  _concatenate in_nested out_nested = OK composed_nested.
Proof.
  apply concatenate_OK. eexists _, _, _.
  split_and!; [vm_compute; reflexivity..|reflexivity| |]; by vm_compute.
Qed.

(* ===================================================================== *)
(** * Labels *)
(* ===================================================================== *)

(** C1, where it fails: an out-of-distribution source with fields
    [{x, y}] and no [label] is not given one; the call raises
    [KeyError('label')]. *)
Lemma label_not_synthesized :
  element_spec out_x_y !! "label" = None ∧
  _concatenate in_x_label out_x_y = Raise (KeyError "label").
Proof. split; vm_compute; reflexivity. Qed.

(** C1, as amended: the label is overwritten, never created.  A source
    whose records have no [label] makes the composition raise (with
    [KeyError('label')] when it is the in-distribution source); when the
    composition succeeds, both sources carry a tensor [label], and the
    label of every composed record has the shape and the dtype of the
    label of the source record it was made from, filled with ones for the
    in-distribution records and with zeros for the others. *)
Theorem label_is_overwritten_not_created in_ds out_ds :
  (element_spec in_ds !! "label" = None →
     _concatenate in_ds out_ds = Raise (KeyError "label")) ∧
  (element_spec out_ds !! "label" = None →
     ∃ e, _concatenate in_ds out_ds = Raise e) ∧
  (∀ ds, well_formed in_ds → well_formed out_ds →
     _concatenate in_ds out_ds = OK ds →
     (∃ l, element_spec in_ds !! "label" = Some (Leaf l)) ∧
     (∃ l, element_spec out_ds !! "label" = Some (Leaf l)) ∧
     ∀ n i r, take n ds !! i = Some r →
       ∃ d x l t, r = OK (Dict d) ∧
         x !! "label" = Some (Leaf l) ∧ d !! "label" = Some (Leaf t) ∧
         shape t = shape l ∧ dtype t = dtype l ∧
         if decide (i < length (take n in_ds))%nat
         then take n in_ds !! i = Some (OK x) ∧ filled_with 1 t
         else take (n - length (take n in_ds)) out_ds
                !! (i - length (take n in_ds))%nat = Some (OK x) ∧
              filled_with 0 t).
Proof.
  split_and!.
  - intros Hl. apply concatenate_Raise. left.
    unfold format_in_ds, _set_label_to_one. by rewrite Hl.
  - intros Hl. destruct (_concatenate in_ds out_ds) as [ds|e] eqn:E; [|eauto].
    apply concatenate_OK in E as (sa & sb & spec & _ & Hb & _).
    apply format_out_ds_trace in Hb as [[l Hl'] _]. congruence.
  - intros ds Hin Hout Hds. split_and!.
    + destruct (composed_in_label _ _ _ Hds) as (l & ? & _). eauto.
    + destruct (composed_out_label _ _ _ Hds) as (l & ? & _). eauto.
    + intros n i r Hr.
      destruct (composed_record _ _ _ Hin Hout Hds n i r Hr)
        as (x & d & l & sa & sb & _ & _ & -> & Hl & _ & _ & Hcase).
      destruct (decide (i < length (take n in_ds))%nat).
      * destruct Hcase as [Hx Hd].
        exists d, x, l, (fill (shape l) (dtype l) (cast 1 (dtype l))).
        split_and!; [done..|]. apply fill_filled_with.
      * destruct Hcase as [Hx Hd].
        exists d, x, l, (fill (shape l) (dtype l) (cast 0 (dtype l))).
        split_and!; [done..|]. apply fill_filled_with.
Qed.

Lemma label_is_overwritten_not_created_witness :
  (∃ l, element_spec in_x_label !! "label" = Some (Leaf l)) ∧
  (∃ l, element_spec out_x_y_label !! "label" = Some (Leaf l)) ∧
  ∀ n i r, take n composed_x_label !! i = Some r →
    ∃ d x l t, r = OK (Dict d) ∧
      x !! "label" = Some (Leaf l) ∧ d !! "label" = Some (Leaf t) ∧
      shape t = shape l ∧ dtype t = dtype l ∧
      if decide (i < length (take n in_x_label))%nat
      then take n in_x_label !! i = Some (OK x) ∧ filled_with 1 t
      else take (n - length (take n in_x_label)) out_x_y_label
             !! (i - length (take n in_x_label))%nat = Some (OK x) ∧
           filled_with 0 t.
Proof.
  exact (proj2 (proj2 (label_is_overwritten_not_created in_x_label out_x_y_label))
           composed_x_label in_x_label_well_formed out_x_y_label_well_formed
           composed_x_label_OK).
Defined.

(** C6: in a composition, every record that comes from the in-distribution
    source has a [label] tensor all of whose elements are 1, and every
    record that comes from the out-of-distribution source has a [label]
    tensor all of whose elements are 0. *)
Theorem composed_labels in_ds out_ds ds :
  well_formed in_ds → well_formed out_ds →
  _concatenate in_ds out_ds = OK ds →
  ∀ n i r, take n ds !! i = Some r →
    ∃ d t, r = OK (Dict d) ∧ d !! "label" = Some (Leaf t) ∧
      filled_with (if decide (i < length (take n in_ds))%nat then 1 else 0) t.
Proof.
  intros Hin Hout Hds n i r Hr.
  destruct (composed_record _ _ _ Hin Hout Hds n i r Hr)
    as (x & d & l & sa & sb & _ & _ & -> & Hl & _ & _ & Hcase).
  destruct (decide (i < length (take n in_ds))%nat);
    destruct Hcase as [_ Hd]; eexists d, _;
    (split_and!; [done..|apply fill_filled_with]).
Qed.

Lemma composed_labels_witness :
  ∃ r1 d1 t1 r2 d2 t2,
    take 5 composed_x_label !! 1%nat = Some r1 ∧ r1 = OK (Dict d1) ∧
    d1 !! "label" = Some (Leaf t1) ∧ filled_with 1 t1 ∧
    take 5 composed_x_label !! 2%nat = Some r2 ∧ r2 = OK (Dict d2) ∧
    d2 !! "label" = Some (Leaf t2) ∧ filled_with 0 t2.
Proof.
  pose proof (composed_labels in_x_label out_x_y_label composed_x_label
                in_x_label_well_formed out_x_y_label_well_formed
                composed_x_label_OK 5) as Hlabels.
  assert (length (take 5 in_x_label) = 2%nat) as Hlen
    by (unfold in_x_label, source; by rewrite take_from_list).
  assert (is_Some (take 5 composed_x_label !! 1%nat)) as [r1 H1]
    by (vm_compute; eauto).
  assert (is_Some (take 5 composed_x_label !! 2%nat)) as [r2 H2]
    by (vm_compute; eauto).
  destruct (Hlabels 1%nat r1 H1) as (d1 & t1 & E1 & Hd1 & Ht1).
  destruct (Hlabels 2%nat r2 H2) as (d2 & t2 & E2 & Hd2 & Ht2).
  rewrite decide_True in Ht1 by (rewrite Hlen; lia).
  rewrite decide_False in Ht2 by (rewrite Hlen; lia).
  by exists r1, d1, t1, r2, d2, t2.
Defined.

(** C10: on a record with a tensor [label], [_set_label_to_zero] returns,
    and [_set_label_to_one] returns unless the label is a string tensor,
    of which [tf.ones_like] raises a [TypeError]; the new label has the
    shape and the dtype of the old one, and every other field has the
    value it had. *)
Theorem set_label_changes_label_only (feature : Features Tensor) (l : Tensor) :
  feature !! "label" = Some (Leaf l) →
  (∃ zeros l0,
     _set_label_to_zero feature = OK zeros ∧
     zeros !! "label" = Some (Leaf l0) ∧
     shape l0 = shape l ∧ dtype l0 = dtype l ∧
     ∀ k, k ≠ "label" → zeros !! k = feature !! k) ∧
  if decide (dtype l = tf_string)
  then _set_label_to_one feature
       = Raise (TypeError "Expected string, got int")
  else ∃ ones l1,
     _set_label_to_one feature = OK ones ∧
     ones !! "label" = Some (Leaf l1) ∧
     shape l1 = shape l ∧ dtype l1 = dtype l ∧
     ∀ k, k ≠ "label" → ones !! k = feature !! k.
Proof.
  intros Hl. split.
  - exists (<["label" := Leaf (tensor_zeros_like l)]> feature),
           (tensor_zeros_like l).
    split_and!; try done.
    + apply set_label_to_zero_OK. eauto.
    + apply lookup_insert_eq.
    + intros k Hk. by rewrite lookup_insert_ne.
  - case_decide as Hd.
    + apply set_label_to_one_Raise. by rewrite Hl.
    + exists (<["label" := Leaf (fill (shape l) (dtype l) (cast 1 (dtype l)))]>
                feature),
             (fill (shape l) (dtype l) (cast 1 (dtype l))).
      split_and!; try done.
      * apply set_label_to_one_OK. eauto.
      * apply lookup_insert_eq.
      * intros k Hk. by rewrite lookup_insert_ne.
Qed.

Lemma set_label_changes_label_only_witness :
  ((∃ zeros l0,
      _set_label_to_zero (record_x_label (1#2) 3) = OK zeros ∧
      zeros !! "label" = Some (Leaf l0) ∧
      shape l0 = [] ∧ dtype l0 = int64 ∧
      ∀ k, k ≠ "label" → zeros !! k = record_x_label (1#2) 3 !! k) ∧
   ∃ ones l1,
      _set_label_to_one (record_x_label (1#2) 3) = OK ones ∧
      ones !! "label" = Some (Leaf l1) ∧
      shape l1 = [] ∧ dtype l1 = int64 ∧
      ∀ k, k ≠ "label" → ones !! k = record_x_label (1#2) 3 !! k) ∧
  ((∃ zeros l0,
      _set_label_to_zero (record_x_text_label (1#2) "cat") = OK zeros ∧
      zeros !! "label" = Some (Leaf l0) ∧
      shape l0 = [] ∧ dtype l0 = tf_string ∧
      ∀ k, k ≠ "label" →
        zeros !! k = record_x_text_label (1#2) "cat" !! k) ∧
   _set_label_to_one (record_x_text_label (1#2) "cat")
   = Raise (TypeError "Expected string, got int")).
Proof.
  split.
  - apply (set_label_changes_label_only (record_x_label (1#2) 3)
             {| shape := []; dtype := int64; values := [SInt 3] |}).
    vm_compute. reflexivity.
  - apply (set_label_changes_label_only (record_x_text_label (1#2) "cat")
             {| shape := []; dtype := tf_string; values := [SBytes "cat"] |}).
    vm_compute. reflexivity.
Defined.

(* ===================================================================== *)
(** * Schemas *)
(* ===================================================================== *)

(** C2, where it fails: two sources with no field in common make the call
    raise, but what is raised is the [KeyError] of the label lookup. *)
Lemma disjoint_sources_raise_KeyError :
  dom (element_spec only_x) ∩ dom (element_spec only_y) = ∅ ∧
  _concatenate only_x only_y = Raise (KeyError "label") ∧
  exn_name (KeyError "label") ≠ "SchemaMismatch".
Proof. split_and!; [vm_compute; reflexivity..|done]. Qed.

(** C2, as amended: when the two element specs have no field name in
    common, the composition raises at the call and no dataset is
    returned.  What is raised depends on the [label] of the
    in-distribution source: [KeyError('label')] when there is none; the
    [TypeError] of [tf.ones_like] when it is a mapping or a string tensor;
    and otherwise the [InvalidArgumentError] of [Dataset.map], because
    [format_in_ds] then returns an empty dict. *)
Theorem disjoint_sources_raise in_ds out_ds :
  dom (element_spec in_ds) ∩ dom (element_spec out_ds) = ∅ →
  ∃ e, _concatenate in_ds out_ds = Raise e ∧
    match element_spec in_ds !! "label" with
    | None => e = KeyError "label"
    | Some (Dict _) => e = TypeError "Failed to convert elements to Tensor"
    | Some (Leaf l) =>
        if decide (spec_dtype l = tf_string)
        then e = TypeError "Expected string, got int"
        else e = InvalidArgumentError
                   "Length for attr output_types of 0 must be at least minimum 1"
    end.
Proof.
  intros Hdisj.
  assert (∀ k, is_Some (element_spec in_ds !! k) →
               element_spec out_ds !! k = None) as Hno.
  { intros k Hin. apply not_elem_of_dom. intros Hout.
    assert (k ∈ dom (element_spec in_ds) ∩ dom (element_spec out_ds)) as Hk
      by (apply elem_of_intersection; split; [by apply elem_of_dom|done]).
    rewrite Hdisj in Hk. by apply not_elem_of_empty in Hk. }
  assert (∀ e, _set_label_to_one (element_spec in_ds) = Raise e →
               _concatenate in_ds out_ds = Raise e) as Hraise.
  { intros e He. apply concatenate_Raise. left. unfold format_in_ds.
    by rewrite He. }
  destruct (element_spec in_ds !! "label") as [[l|d]|] eqn:Hl.
  - case_decide as Hd.
    + eexists. split; [|done]. apply Hraise, set_label_to_one_Raise.
      by rewrite Hl.
    + eexists. split; [|done]. apply concatenate_Raise. right.
      exists (Dict ∅). split; [|by left].
      apply format_in_ds_trace. split; [eauto|]. simpl.
      assert (map_zip_with _keep_common_fields (element_spec in_ds)
                (element_spec out_ds) = ∅) as ->; [|done].
      apply map_eq. intros k. rewrite map_lookup_zip_with, lookup_empty.
      destruct (element_spec in_ds !! k) as [v|] eqn:Hv; [|done].
      by rewrite Hno.
  - eexists. split; [|done]. apply Hraise, set_label_to_one_Raise.
    by rewrite Hl.
  - eexists. split; [|done]. apply Hraise, set_label_to_one_Raise.
    by rewrite Hl.
Qed.

Lemma disjoint_sources_raise_witness :
  (∃ e, _concatenate only_x only_y = Raise e ∧ e = KeyError "label") ∧
  (∃ e, _concatenate only_dict_label only_y = Raise e ∧
        e = TypeError "Failed to convert elements to Tensor") ∧
  (∃ e, _concatenate only_text_label only_y = Raise e ∧
        e = TypeError "Expected string, got int") ∧
  (∃ e, _concatenate only_label only_y = Raise e ∧
        e = InvalidArgumentError
              "Length for attr output_types of 0 must be at least minimum 1").
Proof.
  split_and!.
  - apply (disjoint_sources_raise only_x only_y). vm_compute. reflexivity.
  - apply (disjoint_sources_raise only_dict_label only_y).
    vm_compute. reflexivity.
  - apply (disjoint_sources_raise only_text_label only_y).
    vm_compute. reflexivity.
  - apply (disjoint_sources_raise only_label only_y). vm_compute. reflexivity.
Defined.

(** C4, where it fails: field [k] is a tensor in the in-distribution
    source and a mapping in the other.  The in-distribution record keeps
    [k] as it is, and the composition raises. *)
Lemma diverging_field_not_dropped :
  (∃ d, format_in_ds spec_k_dict Tensor _ record_k_leaf = OK (Dict d) ∧
        d !! "k" = record_k_leaf !! "k" ∧ is_Some (d !! "k")) ∧
  _concatenate in_k_leaf out_k_dict = Raise (AttributeError "keys").
Proof.
  split; [|vm_compute; reflexivity].
  eexists. split_and!; [vm_compute; reflexivity|vm_compute; reflexivity|].
  vm_compute. eauto.
Qed.

(** C4, as amended: a tensor of the feature is kept as it is by
    [_keep_common_fields], at whatever depth, whenever its path exists in
    the spec; what the spec holds there, a tensor or a nested mapping,
    plays no role. *)
Theorem leaf_kept_whatever_the_spec {T S} (x : nest T) (s : nest S) y p t :
  _keep_common_fields x s = OK y →
  at_path p x = Some (Leaf t) →
  is_Some (at_path p s) →
  at_path p y = Some (Leaf t).
Proof.
  revert x s y. induction p as [|k p IH]; intros x s y Hy Hx Hs.
  - injection Hx as ->. by injection Hy as <-.
  - destruct x as [u|f]; [done|].
    apply keep_Dict_inv in Hy as (g & d & -> & -> & Hd).
    simpl in Hx. destruct (f !! k) as [v|] eqn:Hf; [|done]. simpl in Hx.
    apply is_Some_at_path_cons in Hs as (sv & Hg & Hsv).
    specialize (Hd k). rewrite map_lookup_zip_with, Hf, Hg in Hd. simpl in Hd.
    destruct (d !! k) as [w|] eqn:Hw; [|done]. injection Hd as Hd.
    simpl. rewrite Hw. simpl. by eapply IH.
Qed.

Lemma leaf_kept_whatever_the_spec_witness :
  _keep_common_fields (Dict record_k_leaf) (Dict spec_k_dict)
    = OK (Dict record_k_leaf) ∧
  at_path ["k"] (Dict record_k_leaf) = Some (class_id 9).
Proof.
  assert (_keep_common_fields (Dict record_k_leaf) (Dict spec_k_dict)
          = OK (Dict record_k_leaf)) as Hkeep by (vm_compute; reflexivity).
  split; [exact Hkeep|].
  apply (leaf_kept_whatever_the_spec (Dict record_k_leaf) (Dict spec_k_dict)
           (Dict record_k_leaf) ["k"] _ Hkeep).
  - vm_compute. reflexivity.
  - vm_compute. eauto.
Defined.

(* ===================================================================== *)
(** * Order *)
(* ===================================================================== *)

(** C5: the composition gives the relabelled and filtered records of the
    in-distribution source, in their order, and then those of the
    out-of-distribution source, in theirs; as long as the first source
    gives records, the iterator of the composition is an iterator on the
    first source, and none has been made on the second. *)
Theorem composed_order in_ds out_ds ds :
  _concatenate in_ds out_ds = OK ds →
  (∀ n, take n ds
        = (((λ r, r ≫= format_in_ds (element_spec out_ds) Tensor _)
              <$> take n in_ds)
           ++ ((λ r, r ≫= format_out_ds (element_spec in_ds) Tensor _)
                 <$> take (n - length (take n in_ds)) out_ds))%list) ∧
  ∃ sa sb spec,
    let ds' :=
      concatenated
        (mapped (format_in_ds (element_spec out_ds)) in_ds sa)
        (mapped (format_out_ds (element_spec in_ds)) out_ds sb) spec in
    ds = ds' ∧
    ∀ n, length (take n in_ds) = n →
      (read ds' n (make_iterator ds')).2
      = inl (read in_ds n (make_iterator in_ds)).2.
Proof.
  intros Hds. split.
  - intros n. by apply composed_take.
  - apply concatenate_OK in Hds as (sa & sb & spec & _ & _ & _ & -> & _).
    exists sa, sb, spec. split; [done|]. intros n Hn.
    pose proof (read_concatenated_first
                  (mapped (format_in_ds (element_spec out_ds)) in_ds sa)
                  (mapped (format_out_ds (element_spec in_ds)) out_ds sb)
                  spec n (make_iterator in_ds)) as E.
    rewrite read_mapped in E. simpl in E. rewrite length_fmap in E.
    exact (f_equal snd (E Hn)).
Qed.

Lemma composed_order_witness :
  (∀ n, take n composed_x_label
        = (((λ r, r ≫= format_in_ds (element_spec out_x_y_label) Tensor _)
              <$> take n in_x_label)
           ++ ((λ r, r ≫= format_out_ds (element_spec in_x_label) Tensor _)
                 <$> take (n - length (take n in_x_label)) out_x_y_label))%list) ∧
  ∃ sa sb spec,
    let ds' :=
      concatenated
        (mapped (format_in_ds (element_spec out_x_y_label)) in_x_label sa)
        (mapped (format_out_ds (element_spec in_x_label)) out_x_y_label sb) spec in
    composed_x_label = ds' ∧
    ∀ n, length (take n in_x_label) = n →
      (read ds' n (make_iterator ds')).2
      = inl (read in_x_label n (make_iterator in_x_label)).2.
Proof.
  exact (composed_order in_x_label out_x_y_label composed_x_label
           composed_x_label_OK).
Defined.

(* ===================================================================== *)
(** * The dataset class *)
(* ===================================================================== *)

(** C7: the info of every [OodDetectionDataset], whatever its two
    datasets are, reports two classes. *)
Theorem info_num_classes (self : OodDetectionDataset) :
  num_classes (info self) = 2%nat.
Proof. reflexivity. Qed.


(* ===================================================================== *)
(** * More on [_keep_common_fields] *)
(* ===================================================================== *)

Lemma comprehension_not_OK {V} (bodies : gmap string (result V)) k e :
  bodies !! k = Some (Raise e) → ∃ e', comprehension bodies = Raise e'.
Proof.
  intros Hk. destruct (comprehension bodies) as [d|e'] eqn:E; [|eauto].
  apply comprehension_OK in E as ->. rewrite lookup_fmap in Hk.
  by destruct (d !! k).
Qed.

Lemma keep_fails_iff {T S} (x : nest T) (s : nest S) :
  (∃ e, _keep_common_fields x s = Raise e) ↔
  ∃ p d u, at_path p x = Some (Dict d) ∧ at_path p s = Some (Leaf u).
Proof.
  revert s. induction x as [t|f IH] using nest_ind'; intros s.
  - split; [by intros [e ?]|]. intros (p & d & u & Hp & _). by destruct p.
  - destruct s as [u|g].
    + split; [|simpl; eauto]. intros _. by exists [], f, u.
    + simpl. split.
      * intros [e He].
        destruct (comprehension _) as [d|e'] eqn:E; [done|].
        apply comprehension_Raise in E as [k Hk].
        rewrite map_lookup_zip_with in Hk.
        destruct (f !! k) as [v|] eqn:Hf; [|done]. simpl in Hk.
        destruct (g !! k) as [sv|] eqn:Hg; [|done]. simpl in Hk.
        injection Hk as Hk.
        destruct (proj1 (IH k v Hf sv)) as (p & d & u & Hp & Hs); [eauto|].
        exists (k :: p), d, u. simpl. by rewrite Hf, Hg.
      * intros (p & d & u & Hp & Hs). destruct p as [|k p]; [done|].
        simpl in Hp, Hs.
        destruct (f !! k) as [v|] eqn:Hf; [|done].
        destruct (g !! k) as [sv|] eqn:Hg; [|done]. simpl in Hp, Hs.
        destruct (proj2 (IH k v Hf sv)) as [e He]; [eauto|].
        destruct (comprehension_not_OK
                    (map_zip_with _keep_common_fields f g) k e) as [e' ->];
          [|eauto].
        by rewrite map_lookup_zip_with, Hf, Hg; simpl; rewrite He.
Qed.

(** X1: the filter fails exactly when, somewhere along fields that both sides
    have, the feature holds a mapping and the spec a tensor; what it then
    raises is the [AttributeError] of [spec.keys()]. *)
Theorem keep_common_fields_fails_iff {T S} (x : nest T) (s : nest S) :
  (∀ e, _keep_common_fields x s = Raise e → e = AttributeError "keys") ∧
  ((∃ e, _keep_common_fields x s = Raise e) ↔
   ∃ p d u, at_path p x = Some (Dict d) ∧ at_path p s = Some (Leaf u)).
Proof. split; [apply keep_Raise|apply keep_fails_iff]. Qed.

Lemma keep_common_fields_fails_iff_witness :
  ∃ e, _keep_common_fields (Dict (T := Tensor) samples.record_k_dict)
         (Dict samples.spec_k_leaf) = Raise e.
Proof.
  apply (proj2 (keep_common_fields_fails_iff _ _)).
  exists ["k"], {[ "a" := class_id 9 ]},
         {| spec_shape := Some []; spec_dtype := int64 |}.
  split; vm_compute; reflexivity.
Defined.

(** Following a path and filtering commute: what the result holds at a
    path is the filtered form of what the feature holds there, provided
    the spec has the path too, and nothing otherwise. *)
Lemma keep_at_path {T S} (x : nest T) (s : nest S) y p :
  _keep_common_fields x s = OK y →
  match at_path p x, at_path p s with
  | Some v, Some sv =>
      ∃ w, _keep_common_fields v sv = OK w ∧ at_path p y = Some w
  | _, _ => at_path p y = None
  end.
Proof.
  revert x s y. induction p as [|k p IH]; intros x s y Hy; [simpl; eauto|].
  destruct x as [t|f].
  { injection Hy as <-. simpl. done. }
  apply keep_Dict_inv in Hy as (g & d & -> & -> & Hd).
  specialize (Hd k). rewrite map_lookup_zip_with in Hd. simpl.
  destruct (f !! k) as [v|] eqn:Hf; simpl in *.
  - destruct (g !! k) as [sv|] eqn:Hg; simpl in *.
    + destruct (d !! k) as [w|] eqn:Hw; [|done]. injection Hd as Hd.
      simpl. by apply IH.
    + destruct (d !! k); [done|]. simpl. by destruct (at_path p v).
  - destruct (d !! k); [done|]. done.
Qed.

Lemma keep_content {T S} (x : nest T) (s : nest S) y :
  _keep_common_fields x s = OK y →
  ∀ p,
    (is_Some (at_path p y) ↔ is_Some (at_path p x) ∧ is_Some (at_path p s)) ∧
    (∀ t, at_path p y = Some (Leaf t) ↔
          at_path p x = Some (Leaf t) ∧ is_Some (at_path p s)).
Proof.
  intros Hy p. pose proof (keep_at_path x s y p Hy) as Hp.
  destruct (at_path p x) as [v|]; [destruct (at_path p s) as [sv|]|].
  - destruct Hp as (w & Hw & ->). split; [naive_solver|].
    intros t. split.
    + intros [= ->]. destruct v as [t'|f]; [by injection Hw as ->|].
      by apply keep_Dict_inv in Hw as (? & ? & _ & ? & _).
    + intros [[= ->] _]. by injection Hw as <-.
  - rewrite Hp. split; [|intros t]; split; try done; by intros [_ []].
  - rewrite Hp. split; [|intros t]; split; try done; by intros [[] _].
Qed.

(** X2: what a successful filter returns, path by path: a path leads somewhere
    in the result exactly when it does in the feature and in the spec, and
    the tensors of the result are tensors of the feature, at the same
    paths and unchanged. *)
Theorem keep_common_fields_content {T S} (x : nest T) (s : nest S) y :
  _keep_common_fields x s = OK y →
  ∀ p,
    (is_Some (at_path p y) ↔ is_Some (at_path p x) ∧ is_Some (at_path p s)) ∧
    (∀ t, at_path p y = Some (Leaf t) ↔
          at_path p x = Some (Leaf t) ∧ is_Some (at_path p s)).
Proof. apply keep_content. Qed.

Lemma keep_common_fields_content_witness :
  (is_Some (at_path ["k"] (Dict record_k_leaf)) ↔
   is_Some (at_path ["k"] (Dict record_k_leaf)) ∧
   is_Some (at_path ["k"] (Dict spec_k_dict))) ∧
  (∀ t, at_path ["k"] (Dict record_k_leaf) = Some (Leaf t) ↔
        at_path ["k"] (Dict record_k_leaf) = Some (Leaf t) ∧
        is_Some (at_path ["k"] (Dict spec_k_dict))).
Proof.
  apply (keep_common_fields_content (Dict record_k_leaf) (Dict spec_k_dict)).
  vm_compute. reflexivity.
Defined.

(** X3: filtering once more by the same spec changes nothing. *)
Theorem keep_common_fields_idempotent {T S} (x : nest T) (s : nest S) y :
  _keep_common_fields x s = OK y → _keep_common_fields y s = OK y.
Proof.
  revert s y. induction x as [t|f IH] using nest_ind'; intros s y Hy.
  - by injection Hy as <-.
  - apply keep_Dict_inv in Hy as (g & d & -> & -> & Hd). simpl.
    assert (map_zip_with _keep_common_fields d g = OK <$> d) as ->.
    { apply map_eq. intros k. specialize (Hd k).
      rewrite map_lookup_zip_with in Hd.
      rewrite map_lookup_zip_with, lookup_fmap.
      destruct (d !! k) as [w|] eqn:Hw; [|done].
      destruct (f !! k) as [v|] eqn:Hf; [|done].
      destruct (g !! k) as [sv|] eqn:Hg; [|done].
      simpl in *. injection Hd as Hd. f_equal. by eapply IH. }
    by rewrite (proj2 (comprehension_OK _ d) eq_refl).
Qed.

Lemma keep_common_fields_idempotent_witness :
  _keep_common_fields (Dict (T := Tensor) {[ "x" := pixels (1#2) 0 ]})
    (Dict spec_x_y) = OK (Dict {[ "x" := pixels (1#2) 0 ]}).
Proof.
  apply (keep_common_fields_idempotent (Dict (record_x_label (1#2) 3))).
  vm_compute. reflexivity.
Defined.

(** X4: a feature filtered by a spec nested exactly as it is comes back
    whole. *)
Theorem keep_common_fields_same_structure {T S} (x : nest T) (s : nest S) :
  structure x = structure s → _keep_common_fields x s = OK x.
Proof.
  revert s. induction x as [t|f IH] using nest_ind'; intros s Hs; [done|].
  destruct s as [u|g]; [done|]. simpl.
  assert (map_zip_with _keep_common_fields f g = OK <$> f) as ->.
  { apply map_eq. intros k.
    pose proof (structure_Dict_lookup f g k Hs) as Hk.
    rewrite map_lookup_zip_with, lookup_fmap.
    destruct (f !! k) as [v|] eqn:Hf, (g !! k) as [sv|] eqn:Hg; try done.
    simpl in *. injection Hk as Hk. f_equal. by eapply IH. }
  by rewrite (proj2 (comprehension_OK _ f) eq_refl).
Qed.

Lemma keep_common_fields_same_structure_witness :
  _keep_common_fields (Dict (record_x_label (1#2) 3)) (Dict spec_x_label)
  = OK (Dict (record_x_label (1#2) 3)).
Proof.
  apply keep_common_fields_same_structure. vm_compute. reflexivity.
Defined.


(* ===================================================================== *)
(** * More on the composition *)
(* ===================================================================== *)

(** ** The spec check of [concatenate] *)

Lemma common_spec_OK_iff (s1 s2 : nest TensorSpec) :
  (∃ c, common_spec s1 s2 = OK c) ↔
  structure s1 = structure s2 ∧
  ∀ p t1 t2, at_path p s1 = Some (Leaf t1) → at_path p s2 = Some (Leaf t2) →
    spec_dtype t1 = spec_dtype t2.
Proof.
  revert s2. induction s1 as [t1|d1 IH] using nest_ind'; intros s2.
  - destruct s2 as [t2|d2]; simpl.
    + case_decide as Hd.
      * split; [|eauto]. intros _. split; [done|].
        intros [|k p] u1 u2; [|done]. by intros [= <-] [= <-].
      * split; [by intros [c ?]|]. intros [_ Hp]. destruct Hd. by apply (Hp []).
    + split; [by intros [c ?]|]. by intros [? _].
  - destruct s2 as [t2|d2]; simpl.
    { split; [by intros [c ?]|]. by intros [? _]. }
    case_decide as Hdom.
    + split.
      * intros [c Hc].
        destruct (comprehension _) as [d|] eqn:E; [|done].
        pose proof (λ k, comprehension_lookup _ _ k E) as Hd.
        assert (∀ k v1 v2, d1 !! k = Some v1 → d2 !! k = Some v2 →
                  ∃ c', common_spec v1 v2 = OK c') as Hsub.
        { intros k v1 v2 H1 H2. specialize (Hd k).
          rewrite map_lookup_zip_with, H1, H2 in Hd. simpl in Hd.
          destruct (d !! k) as [c'|]; [|done]. injection Hd as Hd. eauto. }
        split.
        -- f_equal. apply map_eq. intros k. rewrite !lookup_fmap.
           destruct (d1 !! k) as [v1|] eqn:H1.
           ++ assert (is_Some (d2 !! k)) as [v2 H2].
              { apply elem_of_dom. rewrite <-Hdom. apply elem_of_dom. eauto. }
              rewrite H2. simpl. f_equal.
              by apply (IH k v1 H1 v2), (Hsub k).
           ++ assert (d2 !! k = None) as ->; [|done].
              apply not_elem_of_dom. rewrite <-Hdom. by apply not_elem_of_dom.
        -- intros [|k p] u1 u2; [done|]. simpl.
           destruct (d1 !! k) as [v1|] eqn:H1; [|done].
           destruct (d2 !! k) as [v2|] eqn:H2; [|done]. simpl.
           by apply (IH k v1 H1 v2), (Hsub k).
      * intros [Hs Hp].
        destruct (comprehension (map_zip_with common_spec d1 d2))
          as [d|e] eqn:E; [simpl; eauto|].
        apply comprehension_Raise in E as [k Hk].
        rewrite map_lookup_zip_with in Hk.
        destruct (d1 !! k) as [v1|] eqn:H1; [|done].
        destruct (d2 !! k) as [v2|] eqn:H2; [|done].
        simpl in Hk. injection Hk as Hk.
        destruct (proj2 (IH k v1 H1 v2)) as [c Hc]; [|congruence].
        split.
        -- pose proof (structure_Dict_lookup d1 d2 k Hs) as Hsk.
           rewrite H1, H2 in Hsk. by injection Hsk.
        -- intros p u1 u2 Hu1 Hu2. apply (Hp (k :: p)); simpl.
           ++ by rewrite H1.
           ++ by rewrite H2.
    + split; [by intros [c ?]|]. intros [[= Hs] _]. destruct Hdom.
      by rewrite <-(dom_fmap_L structure d1), Hs, dom_fmap_L.
Qed.

Lemma common_spec_sym (s1 s2 : nest TensorSpec) :
  (∃ c, common_spec s1 s2 = OK c) → ∃ c, common_spec s2 s1 = OK c.
Proof.
  intros [Hs Hp]%common_spec_OK_iff. apply common_spec_OK_iff.
  split; [done|]. intros p t1 t2 H1 H2. symmetry. by eapply Hp.
Qed.

(** The spec of a concatenation is nested as the two specs are. *)
Lemma common_spec_structure (s1 s2 c : nest TensorSpec) :
  common_spec s1 s2 = OK c → structure c = structure s1.
Proof.
  revert s2 c. induction s1 as [t1|d1 IH] using nest_ind'; intros s2 c.
  - destruct s2 as [t2|d2]; simpl; [|done].
    case_decide; [|done]. by intros [= <-].
  - destruct s2 as [t2|d2]; simpl; [done|].
    case_decide as Hdom; [|done].
    destruct (comprehension _) as [d|] eqn:E; [|done]. intros [= <-].
    pose proof (λ k, comprehension_lookup _ _ k E) as Hd.
    simpl. f_equal. apply map_eq. intros k. rewrite !lookup_fmap.
    specialize (Hd k). rewrite map_lookup_zip_with in Hd.
    destruct (d1 !! k) as [v1|] eqn:H1; simpl in *.
    + assert (is_Some (d2 !! k)) as [v2 H2].
      { apply elem_of_dom. rewrite <-Hdom. apply elem_of_dom. eauto. }
      rewrite H2 in Hd. simpl in Hd.
      destruct (d !! k) as [c'|]; [|done]. injection Hd as Hd.
      simpl. f_equal. by eapply IH.
    + by destruct (d !! k).
Qed.


(** ** When the composition succeeds *)

Lemma composable_sym in_spec out_spec :
  composable in_spec out_spec → composable out_spec in_spec.
Proof.
  intros ((li & Hli & Hdt) & (lo & Hlo) & Hp).
  pose proof (Hp ["label"] (Leaf li) (Leaf lo)) as Hlabel. simpl in Hlabel.
  rewrite Hli, Hlo in Hlabel. specialize (Hlabel eq_refl eq_refl).
  split_and!.
  - exists lo. split; [done|]. by rewrite <-Hlabel.
  - by exists li.
  - intros p v w Hv Hw. specialize (Hp p w v Hw Hv). by destruct v, w.
Qed.

(** The composition succeeds on the composable specs, and on no others. *)
Lemma concatenate_succeeds_iff_helper in_ds out_ds :
  (∃ ds, _concatenate in_ds out_ds = OK ds) ↔
  composable (element_spec in_ds) (element_spec out_ds).
Proof.
  unfold composable.
  set (A := element_spec in_ds). set (B := element_spec out_ds). split.
  - intros [ds (sa & sb & spec & Ha & Hb & Hc & _)%concatenate_OK].
    apply format_in_ds_trace in Ha as [Hla Ha].
    apply format_out_ds_trace in Hb as [Hlb Hb].
    split_and!; [done..|]. intros p v w Hv Hw.
    destruct v as [a|dv], w as [b|dw]; [| | |done].
    + assert (∃ c, common_spec sa sb = OK c) as [_ Hdt]%common_spec_OK_iff
        by eauto.
      apply (Hdt p).
      * apply (proj2 (keep_content _ _ _ Ha p)).
        split; [done|]. fold B. by rewrite Hw.
      * apply (proj2 (keep_content _ _ _ Hb p)).
        split; [done|]. fold A. by rewrite Hv.
    + assert (∃ e, _keep_common_fields (Dict B) (Dict A) = Raise e) as [e He]
        by (apply keep_fails_iff; eauto).
      fold A B in Hb. congruence.
    + assert (∃ e, _keep_common_fields (Dict A) (Dict B) = Raise e) as [e He]
        by (apply keep_fails_iff; eauto).
      fold A B in Ha. congruence.
  - intros ((li & Hli & Hdt) & (lo & Hlo) & Hp).
    destruct (_keep_common_fields (Dict A) (Dict B)) as [sa|e] eqn:Ha.
    2:{ destruct (proj1 (keep_fails_iff (Dict A) (Dict B)))
          as (p & d & u & Hd & Hu); [eauto|]. destruct (Hp p _ _ Hd Hu). }
    destruct (_keep_common_fields (Dict B) (Dict A)) as [sb|e] eqn:Hb.
    2:{ destruct (proj1 (keep_fails_iff (Dict B) (Dict A)))
          as (p & d & u & Hd & Hu); [eauto|]. destruct (Hp p _ _ Hu Hd). }
    assert (∃ c, common_spec sa sb = OK c) as [spec Hspec].
    { apply common_spec_OK_iff. split; [by eapply keep_both|].
      intros p t1 t2 H1 H2.
      destruct (proj1 (proj2 (keep_content _ _ _ Ha p) t1) H1)
        as [H1' _].
      destruct (proj1 (proj2 (keep_content _ _ _ Hb p) t2) H2)
        as [H2' _].
      apply (Hp p _ _ H1' H2'). }
    eexists. apply concatenate_OK. exists sa, sb, spec.
    split_and!.
    + apply format_in_ds_trace. eauto.
    + apply format_out_ds_trace. eauto.
    + done.
    + reflexivity.
    + apply (flatten_not_nil sa ["label"] li).
      apply (proj2 (keep_content _ _ _ Ha ["label"])). simpl.
      by rewrite Hli, Hlo.
    + apply (flatten_not_nil sb ["label"] lo).
      apply (proj2 (keep_content _ _ _ Hb ["label"])). simpl.
      by rewrite Hli, Hlo.
Qed.

(** X5: the composition succeeds exactly when both element specs hold a tensor
    [label], that of the in-distribution source not a string tensor, and,
    at every path of field names that both specs have, they hold two
    mappings or two tensors of the same dtype. *)
Theorem concatenate_succeeds_iff in_ds out_ds :
  (∃ ds, _concatenate in_ds out_ds = OK ds) ↔
  (∃ l, element_spec in_ds !! "label" = Some (Leaf l) ∧
        spec_dtype l ≠ tf_string) ∧
  (∃ l, element_spec out_ds !! "label" = Some (Leaf l)) ∧
  ∀ p v w,
    at_path p (Dict (element_spec in_ds)) = Some v →
    at_path p (Dict (element_spec out_ds)) = Some w →
    match v, w with
    | Leaf a, Leaf b => spec_dtype a = spec_dtype b
    | Dict _, Dict _ => True
    | _, _ => False
    end.
Proof. apply concatenate_succeeds_iff_helper. Qed.

(** The sample sources with nested fields compose. *)
Lemma nested_composable : composable spec_nested_in spec_nested_out.
Proof.
  apply (concatenate_succeeds_iff_helper in_nested out_nested).
  exists composed_nested. apply composed_nested_OK.
Qed.

(** The records of that composition: of the in-distribution records,
    [z] and [m.b] are gone; of the out-of-distribution one, [y] and
    [m.c]. *)
Lemma composed_nested_records :
  take 9 composed_nested
  = [ OK (Dict {[ "x" := pixels (1#2) 0;
                  "m" := Dict {[ "a" := class_id 5 ]};
                  "label" := class_id 1 ]});
      OK (Dict {[ "x" := pixels (1#4) 0;
                  "m" := Dict {[ "a" := class_id 9 ]};
                  "label" := class_id 1 ]});
      OK (Dict {[ "x" := pixels 0 1;
                  "m" := Dict {[ "a" := class_id 3 ]};
                  "label" := class_id 0 ]}) ].
Proof. vm_compute. reflexivity. Qed.

(** Two sources with a string for a label do not compose. *)
Lemma x_label_string_not_composable :
  ¬ composable spec_x_text_label spec_x_text_label.
Proof.
  intros ((l & Hl & Hdt) & _). vm_compute in Hl. injection Hl as <-.
  by destruct Hdt.
Qed.

(** C3: when both element specs hold a tensor [label] (a string one
    excepted for the in-distribution source) and agree, wherever a path of
    field names exists in both, on holding a mapping or a tensor of one
    dtype, the two sources are composed, and every record read from the
    composition holds, at every depth, the fields that the two sources'
    schemas share once the labels have been set: its leaf paths are those
    in both schemas, and a path of field names leads somewhere in the
    record exactly when it does in both element specs.  What one source
    has and the other lacks is removed. *)
Theorem composed_schema in_ds out_ds :
  well_formed in_ds → well_formed out_ds →
  (∃ l, element_spec in_ds !! "label" = Some (Leaf l) ∧
        spec_dtype l ≠ tf_string) →
  (∃ l, element_spec out_ds !! "label" = Some (Leaf l)) →
  (∀ p v w,
     at_path p (Dict (element_spec in_ds)) = Some v →
     at_path p (Dict (element_spec out_ds)) = Some w →
     match v, w with
     | Leaf a, Leaf b => spec_dtype a = spec_dtype b
     | Dict _, Dict _ => True
     | _, _ => False
     end) →
  ∃ ds in_spec out_spec,
    _concatenate in_ds out_ds = OK ds ∧
    _set_label_to_one (element_spec in_ds) = OK in_spec ∧
    _set_label_to_zero (element_spec out_ds) = OK out_spec ∧
    ∀ n r, r ∈ take n ds →
      ∃ x, r = OK x ∧
        schema x = schema (Dict in_spec) ∩ schema (Dict out_spec) ∧
        ∀ p, is_Some (at_path p x) ↔
             is_Some (at_path p (Dict in_spec)) ∧
             is_Some (at_path p (Dict out_spec)).
Proof.
  intros Hin Hout (li & Hli & Hdt) (lo & Hlo) Hp.
  destruct (proj2 (concatenate_succeeds_iff_helper in_ds out_ds))
    as [ds Hds]; [split_and!; eauto|].
  exists ds, (element_spec in_ds), (element_spec out_ds). split_and!.
  - done.
  - apply set_label_to_one_OK. exists li. split_and!; [done..|].
    symmetry. by apply insert_id.
  - apply set_label_to_zero_OK. exists lo. split; [done|].
    symmetry. by apply insert_id.
  - intros n r [i Hr]%list_elem_of_lookup.
    destruct (composed_record _ _ _ Hin Hout Hds n i r Hr)
      as (x & d & l & sa & sb & Ha & Hb & -> & _ & _ & Hs & _).
    apply format_in_ds_trace in Ha as [_ Ha].
    apply format_out_ds_trace in Hb as [_ Hb].
    exists (Dict d). split_and!; [done|..].
    + rewrite (schema_same_structure _ _ Hs). by eapply keep_both_schema.
    + intros p. rewrite (at_path_same_structure _ _ p Hs).
      by eapply keep_both.
Qed.

Lemma composed_schema_witness :
  ∃ ds in_spec out_spec,
    _concatenate in_nested out_nested = OK ds ∧
    _set_label_to_one (element_spec in_nested) = OK in_spec ∧
    _set_label_to_zero (element_spec out_nested) = OK out_spec ∧
    ∀ n r, r ∈ take n ds →
      ∃ x, r = OK x ∧
        schema x = schema (Dict in_spec) ∩ schema (Dict out_spec) ∧
        ∀ p, is_Some (at_path p x) ↔
             is_Some (at_path p (Dict in_spec)) ∧
             is_Some (at_path p (Dict out_spec)).
Proof.
  destruct nested_composable as (Hli & Hlo & Hp).
  exact (composed_schema in_nested out_nested in_nested_well_formed
           out_nested_well_formed Hli Hlo Hp).
Defined.

(** X7: exchanging the two sources does not change whether the composition
    succeeds. *)
Theorem concatenate_succeeds_sym in_ds out_ds :
  (∃ ds, _concatenate in_ds out_ds = OK ds) →
  ∃ ds, _concatenate out_ds in_ds = OK ds.
Proof.
  intros Hc%concatenate_succeeds_iff_helper.
  by apply concatenate_succeeds_iff_helper, composable_sym.
Qed.

Lemma concatenate_succeeds_sym_witness :
  ∃ ds, _concatenate out_x_y_label in_x_label = OK ds.
Proof.
  apply concatenate_succeeds_sym. exists composed_x_label.
  apply composed_x_label_OK.
Defined.

(** X8: the two registered pairings load or fail together: whatever the two
    underlying datasets are, [Cifar100VsCifar10Dataset] loads exactly when
    [Cifar10VsCifar100Dataset] does. *)
Theorem registered_pairings_load_together
    (Cifar10Dataset Cifar100Dataset : base_Dataset) preprocess_fn :
  (∃ ds, load (Cifar10VsCifar100Dataset Cifar10Dataset Cifar100Dataset)
              preprocess_fn = OK ds) ↔
  (∃ ds, load (Cifar100VsCifar10Dataset Cifar10Dataset Cifar100Dataset)
              preprocess_fn = OK ds).
Proof.
  unfold load. simpl.
  destruct (base_load Cifar10Dataset preprocess_fn) as [a|];
    destruct (base_load Cifar100Dataset preprocess_fn) as [b|]; simpl;
    try (split; intros [ds ?]; done).
  rewrite !concatenate_succeeds_iff_helper.
  split; apply composable_sym.
Qed.


(** ** The records of a composition *)

Section ComposedRecords.
Variables in_ds out_ds : Dataset (λ T, Features T).
Variable ds : Dataset nest.
Hypothesis Hin : well_formed in_ds.
Hypothesis Hout : well_formed out_ds.
Hypothesis Hds : _concatenate in_ds out_ds = OK ds.

  (** A record of the composition with the source record it was made
      from and the function that made it. *)
Lemma composed_record_source n i r :
    take n ds !! i = Some r →
    ∃ (x : Features Tensor) y,
      r = OK y ∧
      ((∃ x', _set_label_to_one x = OK x' ∧
              _keep_common_fields (Dict x') (Dict (element_spec out_ds)) = OK y) ∨
       (∃ x', _set_label_to_zero x = OK x' ∧
              _keep_common_fields (Dict x') (Dict (element_spec in_ds)) = OK y)) ∧
      (take n in_ds !! i = Some (OK x) ∨
       take (n - length (take n in_ds)) out_ds
         !! (i - length (take n in_ds))%nat = Some (OK x)).
Proof.
    intros Hr.
    destruct (composed_record _ _ _ Hin Hout Hds n i r Hr)
      as (x & d & l & sa & sb & _ & _ & -> & _ & _ & _ & Hcase).
    rewrite (composed_take _ _ _ Hds) in Hr.
    exists x, (Dict d). split; [done|].
    destruct (decide (i < length (take n in_ds))%nat) as [Hlt|Hge];
      destruct Hcase as [Hx _].
    - rewrite lookup_app_l in Hr by (by rewrite length_fmap).
      rewrite list_lookup_fmap, Hx in Hr. simpl in Hr. injection Hr as Hr.
      split; [left|by left]. unfold format_in_ds in Hr.
      destruct (_set_label_to_one x) as [x'|]; [|done]. eauto.
    - rewrite lookup_app_r in Hr by (rewrite length_fmap; lia).
      rewrite length_fmap, list_lookup_fmap, Hx in Hr. simpl in Hr.
      injection Hr as Hr. split; [right|by right]. unfold format_out_ds in Hr.
      destruct (_set_label_to_zero x) as [x'|]; [|done]. eauto.
Qed.
End ComposedRecords.

(** X9: apart from the label, the tensors of a composed record are tensors of
    the source record it was made from, at the same paths and unchanged. *)
Theorem composed_record_keeps_tensors in_ds out_ds ds :
  well_formed in_ds → well_formed out_ds →
  _concatenate in_ds out_ds = OK ds →
  ∀ n i r, take n ds !! i = Some r →
    ∃ (x : Features Tensor) y, r = OK y ∧
      (take n in_ds !! i = Some (OK x) ∨
       take (n - length (take n in_ds)) out_ds
         !! (i - length (take n in_ds))%nat = Some (OK x)) ∧
      ∀ p t, p ≠ ["label"] →
        at_path p y = Some (Leaf t) → at_path p (Dict x) = Some (Leaf t).
Proof.
  intros Hin Hout Hds n i r Hr.
  destruct (composed_record_source _ _ _ Hin Hout Hds n i r Hr)
    as (x & y & -> & Hmade & Hfrom).
  exists x, y. split_and!; [done..|]. intros p t Hp Hy.
  assert (∃ x' u (s : nest TensorSpec), x' = <["label" := Leaf u]> x ∧
            _keep_common_fields (Dict x') s = OK y) as (x' & u & s & -> & Hk).
  { destruct Hmade as [(x' & Hset & Hk)|(x' & Hset & Hk)].
    - apply set_label_to_one_OK in Hset as (l & _ & _ & ->). eauto.
    - apply set_label_to_zero_OK in Hset as (l & _ & ->). eauto. }
  destruct (proj1 (proj2 (keep_content _ _ _ Hk p) t) Hy)
    as [Hx _].
  clear Hy Hk. destruct p as [|k p]; [done|]. simpl in *.
  destruct (decide (k = "label")) as [->|Hne].
  - rewrite lookup_insert_eq in Hx. simpl in Hx. by destruct p.
  - by rewrite lookup_insert_ne in Hx.
Qed.

Lemma composed_record_keeps_tensors_witness :
  ∃ r (x : Features Tensor) y,
    take 5 composed_x_label !! 0%nat = Some r ∧ r = OK y ∧
    (take 5 in_x_label !! 0%nat = Some (OK x) ∨
     take (5 - length (take 5 in_x_label)) out_x_y_label
       !! (0 - length (take 5 in_x_label))%nat = Some (OK x)) ∧
    ∀ p t, p ≠ ["label"] →
      at_path p y = Some (Leaf t) → at_path p (Dict x) = Some (Leaf t).
Proof.
  assert (is_Some (take 5 composed_x_label !! 0%nat)) as [r Hr]
    by (vm_compute; eauto).
  destruct (composed_record_keeps_tensors in_x_label out_x_y_label
              composed_x_label in_x_label_well_formed
              out_x_y_label_well_formed composed_x_label_OK 5 0%nat r Hr)
    as (x & y & ? & ? & ?).
  by exists r, x, y.
Defined.

(** X10: the composition is again a dataset whose elements are nested as its
    element spec says: reading it never fails, and every record has the
    structure of [element_spec]. *)
Theorem composed_is_well_formed in_ds out_ds ds :
  well_formed in_ds → well_formed out_ds →
  _concatenate in_ds out_ds = OK ds →
  ∀ n r, r ∈ take n ds →
    ∃ y, r = OK y ∧ structure y = structure (element_spec ds).
Proof.
  intros Hin Hout Hds n r [i Hr]%list_elem_of_lookup.
  destruct (composed_record _ _ _ Hin Hout Hds n i r Hr)
    as (x & d & l & sa & sb & Ha & Hb & -> & _ & _ & Hs & _).
  exists (Dict d). split; [done|]. rewrite Hs.
  apply concatenate_OK in Hds as (sa' & sb' & spec & Ha' & _ & Hc & -> & _).
  simpl. rewrite Ha in Ha'. injection Ha' as <-.
  symmetry. by eapply common_spec_structure.
Qed.

Lemma composed_is_well_formed_witness :
  ∃ r y, r ∈ take 5 composed_x_label ∧ r = OK y ∧
         structure y = structure (element_spec composed_x_label).
Proof.
  assert (is_Some (take 5 composed_x_label !! 0%nat)) as [r Hr]
    by (vm_compute; eauto).
  assert (r ∈ take 5 composed_x_label) as Hin
    by (apply list_elem_of_lookup; eauto).
  destruct (composed_is_well_formed in_x_label out_x_y_label composed_x_label
              in_x_label_well_formed out_x_y_label_well_formed
              composed_x_label_OK 5 r Hin) as (y & ? & ?).
  by exists r, y.
Defined.

(** X11: composing two sources given as lists of [n] and [m] records gives
    [n + m] records, no more and no fewer. *)
Theorem composed_count in_spec out_spec
    (ins outs : list (Features Tensor)) ds :
  _concatenate (source in_spec ins) (source out_spec outs) = OK ds →
  ∀ n, length (take n ds) = (n `min` (length ins + length outs))%nat.
Proof.
  intros Hds n. rewrite (composed_take _ _ _ Hds).
  unfold source. rewrite !take_from_list.
  rewrite length_app, !length_fmap, !length_take. lia.
Qed.

Lemma composed_count_witness :
  length (take 9 composed_x_label) = 5%nat.
Proof.
  apply (composed_count spec_x_label spec_x_y_label _ _ composed_x_label
           composed_x_label_OK 9).
Defined.


(* ===================================================================== *)
(** * More on the labels *)
(* ===================================================================== *)

(** X12: relabelling overwrites: setting the label twice is setting it once,
    and after a first relabelling the second one alone decides. *)
Theorem set_label_last_wins (feature ones : Features Tensor) :
  _set_label_to_one feature = OK ones →
  _set_label_to_one ones = OK ones ∧
  _set_label_to_zero ones = _set_label_to_zero feature.
Proof.
  intros (l & Hl & Hd & ->)%set_label_to_one_OK. split.
  - apply set_label_to_one_OK.
    exists (fill_like l (cast 1 (tensor_dtype l))).
    split_and!; [apply lookup_insert_eq|done|]. by rewrite insert_insert_eq.
  - unfold _set_label_to_zero. rewrite lookup_insert_eq, Hl. simpl.
    by rewrite insert_insert_eq.
Qed.

Lemma set_label_last_wins_witness :
  ∃ ones, _set_label_to_one (record_x_label (1#2) 3) = OK ones ∧
    _set_label_to_one ones = OK ones ∧
    _set_label_to_zero ones = _set_label_to_zero (record_x_label (1#2) 3).
Proof.
  assert (∃ ones, _set_label_to_one (record_x_label (1#2) 3) = OK ones)
    as [ones Hones] by (vm_compute; eauto).
  exists ones. split; [done|]. by apply set_label_last_wins.
Defined.

(** X13: the label that [format_in_ds] has just set does not survive the filter
    when the other source's spec has no [label]: the mapped record then
    has no label at all.  When the spec has one, the record's label is
    what [tf.ones_like] made of the label it had. *)
Theorem format_in_ds_label {T} `{TensorLike T}
    (out_spec : Features TensorSpec) (feature : Features T) y :
  format_in_ds out_spec T _ feature = OK y →
  ∃ l ones d, feature !! "label" = Some (Leaf l) ∧
    tensor_ones_like l = OK ones ∧ y = Dict d ∧
    d !! "label" = if decide (is_Some (out_spec !! "label"))
                   then Some (Leaf ones) else None.
Proof.
  unfold format_in_ds.
  destruct (_set_label_to_one feature) as [x'|] eqn:Hset; [|done].
  apply set_label_to_one_OK in Hset as (l & Hl & Hdt & ->).
  intros Hy. unfold mbind, result_bind, Py.bind in Hy.
  pose proof Hy as (g & d & [= <-] & -> & Hd)%keep_Dict_inv.
  exists l, (fill_like l (cast 1 (tensor_dtype l))), d.
  split_and!; [done|by apply tensor_ones_like_OK|done|].
  specialize (Hd "label").
  rewrite map_lookup_zip_with, lookup_insert_eq in Hd. simpl in Hd.
  case_decide as Hs.
  - destruct Hs as [sv Hs]. rewrite Hs in Hd. simpl in Hd.
    destruct (d !! "label"); naive_solver.
  - destruct (out_spec !! "label"); [destruct Hs; eauto|].
    by destruct (d !! "label").
Qed.

Lemma format_in_ds_label_witness :
  ∃ l ones d, record_x_label (1#2) 3 !! "label" = Some (Leaf l) ∧
    tensor_ones_like l = OK ones ∧
    Dict {[ "x" := pixels (1#2) 0 ]} = Dict d ∧
    d !! "label" = if decide (is_Some (spec_x_y !! "label"))
                   then Some (Leaf ones) else None.
Proof.
  apply (format_in_ds_label spec_x_y (record_x_label (1#2) 3)).
  vm_compute. reflexivity.
Defined.

(** A [label] that is a mapping: what the relabelling raises depends on
    the mode, a [ValueError] when it is called on eager tensors, a
    [TypeError] when [Dataset.map] traces it. *)
Lemma set_label_on_mapping :
  _set_label_to_one (T := Tensor) {[ "label" := Dict {[ "a" := class_id 1 ]} ]}
  = Raise (ValueError
             "Attempt to convert a value with an unsupported type to a Tensor") ∧
  _set_label_to_one (T := TensorSpec)
    {[ "label" := Dict {[ "a" := scalar_spec int64 ]} ]}
  = Raise (TypeError "Failed to convert elements to Tensor") ∧
  _set_label_to_zero (T := TensorSpec)
    {[ "label" := Dict {[ "a" := scalar_spec int64 ]} ]}
  = Raise (TypeError "Failed to convert elements to Tensor").
Proof. split_and!; vm_compute; reflexivity. Qed.


(* ===================================================================== *)
(** * What the composition raises *)
(* ===================================================================== *)

Lemma common_spec_Raise (s1 s2 : nest TensorSpec) e :
  common_spec s1 s2 = Raise e → structure s1 = structure s2 →
  ∃ p t1 t2, at_path p s1 = Some (Leaf t1) ∧ at_path p s2 = Some (Leaf t2) ∧
    spec_dtype t1 ≠ spec_dtype t2.
Proof.
  revert s2 e. induction s1 as [t1|d1 IH] using nest_ind'; intros s2 e.
  - destruct s2 as [t2|d2]; [|done]. simpl. case_decide; [done|].
    intros _ _. by exists [], t1, t2.
  - destruct s2 as [t2|d2]; [done|]. simpl. intros Hc Hs.
    case_decide as Hdom.
    + destruct (comprehension _) as [d|e'] eqn:E; [done|].
      apply comprehension_Raise in E as [k Hk].
      rewrite map_lookup_zip_with in Hk.
      destruct (d1 !! k) as [v1|] eqn:H1; [|done].
      destruct (d2 !! k) as [v2|] eqn:H2; [|done].
      simpl in Hk. injection Hk as Hk.
      destruct (IH k v1 H1 v2 e' Hk) as (p & t1 & t2 & Hp1 & Hp2 & Hne).
      { pose proof (structure_Dict_lookup d1 d2 k Hs) as Hsk.
        rewrite H1, H2 in Hsk. by injection Hsk. }
      exists (k :: p), t1, t2. simpl. by rewrite H1, H2.
    + destruct Hdom. injection Hs as Hs.
      by rewrite <-(dom_fmap_L structure d1), Hs, dom_fmap_L.
Qed.

Lemma common_spec_Raise_TypeError (s1 s2 : nest TensorSpec) e :
  common_spec s1 s2 = Raise e → e = TypeError "Incompatible dataset elements".
Proof.
  revert s2 e. induction s1 as [t1|d1 IH] using nest_ind'; intros s2 e.
  - destruct s2 as [t2|d2]; simpl; [case_decide; [done|]|]; by intros [= <-].
  - destruct s2 as [t2|d2]; simpl; [by intros [= <-]|].
    case_decide; [|by intros [= <-]].
    destruct (comprehension _) as [d|e'] eqn:E; [done|]. intros [= ->].
    apply comprehension_Raise in E as [k Hk].
    rewrite map_lookup_zip_with in Hk.
    destruct (d1 !! k) as [v1|] eqn:H1; [|done].
    destruct (d2 !! k) as [v2|] eqn:H2; [|done].
    simpl in Hk. injection Hk as Hk. by eapply IH.
Qed.

(** What tracing the two mapped functions raises: the exception of the
    relabelling, or else that of the filter. *)
Lemma format_in_ds_trace_Raise (in_spec out_spec : Features TensorSpec) e :
  format_in_ds out_spec TensorSpec _ in_spec = Raise e →
  _set_label_to_one in_spec = Raise e ∨
  _keep_common_fields (Dict in_spec) (Dict out_spec) = Raise e.
Proof.
  unfold format_in_ds.
  destruct (_set_label_to_one in_spec) as [s'|e'] eqn:E;
    [|intros [= ->]; by left].
  apply set_label_to_one_OK in E as (l & Hl & Hd & ->). simpl.
  rewrite (insert_id _ _ _ Hl). by right.
Qed.

Lemma format_out_ds_trace_Raise (in_spec out_spec : Features TensorSpec) e :
  format_out_ds in_spec TensorSpec _ out_spec = Raise e →
  _set_label_to_zero out_spec = Raise e ∨
  _keep_common_fields (Dict out_spec) (Dict in_spec) = Raise e.
Proof.
  unfold format_out_ds.
  destruct (_set_label_to_zero out_spec) as [s'|e'] eqn:E;
    [|intros [= ->]; by left].
  apply set_label_to_zero_OK in E as (l & Hl & ->). simpl.
  rewrite (insert_id _ _ _ Hl). by right.
Qed.

(** X6: every exception of a composition, with its cause: a [KeyError] for a
    source without [label]; a [TypeError] of [tf.ones_like] or
    [tf.zeros_like] for a [label] that is a mapping; a [TypeError] of
    [tf.ones_like] for an in-distribution [label] that is a string tensor;
    an [AttributeError] for a field that is a mapping on one side and a
    tensor on the other; an [InvalidArgumentError] of [Dataset.map] when no
    tensor of the in-distribution source has its path in the other spec;
    and a [TypeError] of [Dataset.concatenate] for a field whose tensors
    have different dtypes on the two sides. *)
Theorem concatenate_raises in_ds out_ds e :
  _concatenate in_ds out_ds = Raise e →
  (e = KeyError "label" ∧
     (element_spec in_ds !! "label" = None ∨
      element_spec out_ds !! "label" = None)) ∨
  (e = TypeError "Failed to convert elements to Tensor" ∧
     ((∃ d, element_spec in_ds !! "label" = Some (Dict d)) ∨
      (∃ d, element_spec out_ds !! "label" = Some (Dict d)))) ∨
  (e = TypeError "Expected string, got int" ∧
     ∃ l, element_spec in_ds !! "label" = Some (Leaf l) ∧
          spec_dtype l = tf_string) ∨
  (e = AttributeError "keys" ∧
     ∃ p v w, at_path p (Dict (element_spec in_ds)) = Some v ∧
              at_path p (Dict (element_spec out_ds)) = Some w ∧
              isinstance_dict v ≠ isinstance_dict w) ∨
  (e = InvalidArgumentError
         "Length for attr output_types of 0 must be at least minimum 1" ∧
     ∀ p t, at_path p (Dict (element_spec in_ds)) = Some (Leaf t) →
            at_path p (Dict (element_spec out_ds)) = None) ∨
  (e = TypeError "Incompatible dataset elements" ∧
     ∃ p a b, at_path p (Dict (element_spec in_ds)) = Some (Leaf a) ∧
              at_path p (Dict (element_spec out_ds)) = Some (Leaf b) ∧
              spec_dtype a ≠ spec_dtype b).
Proof.
  set (A := element_spec in_ds). set (B := element_spec out_ds).
  intros [Ha|(sa & Ha & [[Hsa ->]|[Hsa Hrest]])]%concatenate_Raise;
    fold A B in Ha.
  - apply format_in_ds_trace_Raise in Ha as [Ha|Ha].
    + apply set_label_to_one_Raise in Ha.
      destruct (A !! "label") as [[l|d]|] eqn:Hl.
      * destruct Ha as [Hd ->]. right; right; left. eauto.
      * subst e. right; left. eauto.
      * subst e. left. eauto.
    + pose proof (keep_Raise _ _ _ Ha) as ->.
      destruct (proj1 (keep_fails_iff (Dict A) (Dict B)))
        as (p & d & u & Hd & Hu); [eauto|].
      right; right; right; left. split; [done|].
      by exists p, (Dict d), (Leaf u).
  - apply format_in_ds_trace in Ha as [_ Ha].
    right; right; right; right; left. split; [done|]. intros p t Hp.
    destruct (at_path p (Dict B)) as [w|] eqn:Hw; [|done].
    destruct (flatten_not_nil sa p t); [|done].
    apply (proj2 (keep_content _ _ _ Ha p)). split; [done|]. by rewrite Hw.
  - fold A B in Hrest.
    destruct Hrest as [Hb|(sb & Hb & [[Hsb ->]|[Hsb Hc]])].
    + apply format_out_ds_trace_Raise in Hb as [Hb|Hb].
      * apply set_label_to_zero_Raise in Hb.
        destruct (B !! "label") as [[l|d]|] eqn:Hl; [done|..].
        -- subst e. right; left. eauto.
        -- subst e. left. eauto.
      * pose proof (keep_Raise _ _ _ Hb) as ->.
        destruct (proj1 (keep_fails_iff (Dict B) (Dict A)))
          as (p & d & u & Hd & Hu); [eauto|].
        right; right; right; left. split; [done|].
        by exists p, (Leaf u), (Dict d).
    + apply format_in_ds_trace in Ha as [(li & Hli & _) Ha].
      apply format_out_ds_trace in Hb as [(lo & Hlo) Hb].
      destruct (flatten_not_nil sb ["label"] lo); [|done].
      apply (proj2 (keep_content _ _ _ Hb ["label"])). simpl.
      by rewrite Hli, Hlo.
    + right; right; right; right; right.
      split; [by eapply common_spec_Raise_TypeError|].
      apply format_in_ds_trace in Ha as [_ Ha].
      apply format_out_ds_trace in Hb as [_ Hb].
      destruct (common_spec_Raise sa sb e Hc) as (p & a & b & Hpa & Hpb & Hne);
        [by eapply keep_both|].
      exists p, a, b.
      destruct (proj1 (proj2 (keep_content _ _ _ Ha p) a) Hpa) as [? _].
      destruct (proj1 (proj2 (keep_content _ _ _ Hb p) b) Hpb) as [? _].
      done.
Qed.

(** One composition for each of the six causes. *)
Lemma concatenate_raises_causes :
  _concatenate in_x_label out_x_y = Raise (KeyError "label") ∧
  _concatenate only_dict_label out_x_y_label
  = Raise (TypeError "Failed to convert elements to Tensor") ∧
  _concatenate in_x_text_label in_x_text_label
  = Raise (TypeError "Expected string, got int") ∧
  _concatenate in_k_leaf out_k_dict = Raise (AttributeError "keys") ∧
  _concatenate only_label only_y
  = Raise (InvalidArgumentError
             "Length for attr output_types of 0 must be at least minimum 1") ∧
  _concatenate in_x_label in_x_text_label
  = Raise (TypeError "Incompatible dataset elements").
Proof. split_and!; vm_compute; reflexivity. Qed.

Lemma concatenate_raises_witness :
  (TypeError "Incompatible dataset elements" = KeyError "label" ∧
     (element_spec in_x_label !! "label" = None ∨
      element_spec in_x_text_label !! "label" = None)) ∨
  (TypeError "Incompatible dataset elements"
   = TypeError "Failed to convert elements to Tensor" ∧
     ((∃ d, element_spec in_x_label !! "label" = Some (Dict d)) ∨
      (∃ d, element_spec in_x_text_label !! "label" = Some (Dict d)))) ∨
  (TypeError "Incompatible dataset elements"
   = TypeError "Expected string, got int" ∧
     ∃ l, element_spec in_x_label !! "label" = Some (Leaf l) ∧
          spec_dtype l = tf_string) ∨
  (TypeError "Incompatible dataset elements" = AttributeError "keys" ∧
     ∃ p v w, at_path p (Dict (element_spec in_x_label)) = Some v ∧
              at_path p (Dict (element_spec in_x_text_label)) = Some w ∧
              isinstance_dict v ≠ isinstance_dict w) ∨
  (TypeError "Incompatible dataset elements"
   = InvalidArgumentError
       "Length for attr output_types of 0 must be at least minimum 1" ∧
     ∀ p t, at_path p (Dict (element_spec in_x_label)) = Some (Leaf t) →
            at_path p (Dict (element_spec in_x_text_label)) = None) ∨
  (TypeError "Incompatible dataset elements"
   = TypeError "Incompatible dataset elements" ∧
     ∃ p a b, at_path p (Dict (element_spec in_x_label)) = Some (Leaf a) ∧
              at_path p (Dict (element_spec in_x_text_label)) = Some (Leaf b) ∧
              spec_dtype a ≠ spec_dtype b).
Proof.
  apply (concatenate_raises in_x_label in_x_text_label).
  vm_compute. reflexivity.
Defined.


(* ===================================================================== *)
(** * The accumulator *)
(* ===================================================================== *)

Module diversity_facts.
Import diversity.

Section Sums.
#[local] Open Scope R_scope.

Lemma add_sums_comm a b : add_sums a b = add_sums b a.
Proof. destruct a, b. unfold add_sums. simpl. f_equal; lra. Qed.

Lemma add_sums_assoc a b c :
    add_sums a (add_sums b c) = add_sums (add_sums a b) c.
Proof. destruct a, b, c. unfold add_sums. simpl. f_equal; lra. Qed.

Lemma add_sums_no_sums_r a : add_sums a no_sums = a.
Proof. destruct a. unfold add_sums. simpl. f_equal; lra. Qed.

Lemma sum_sums_app l l' :
    sum_sums (l ++ l') = add_sums (sum_sums l) (sum_sums l').
Proof.
    induction l as [|a l IH]; simpl.
    - by rewrite add_sums_comm, add_sums_no_sums_r.
    - by rewrite IH, add_sums_assoc.
Qed.

Lemma sum_sums_Permutation l l' : l ≡ₚ l' → sum_sums l = sum_sums l'.
Proof.
    induction 1 as [|a l l' _ IH|a b l|l1 l2 l3 _ IH1 _ IH2]; simpl.
    - done.
    - by rewrite IH.
    - by rewrite !add_sums_assoc, (add_sums_comm b a).
    - by rewrite IH1.
Qed.
End Sums.

Lemma elem_of_pairs m i j : (i, j) ∈ pairs m ↔ (i < j < m)%nat.
Proof.
  unfold pairs. rewrite list_elem_of_bind. split.
  - intros (i' & Hj & Hi%elem_of_seq).
    apply list_elem_of_bind in Hj as (j' & Hij & Hj%elem_of_seq).
    apply list_elem_of_singleton in Hij as [= -> ->]. lia.
  - intros Hij. exists i. split; [|apply elem_of_seq; lia].
    apply list_elem_of_bind. exists j. split; [by left|].
    apply elem_of_seq. lia.
Qed.

Lemma NoDup_pairs m : NoDup (pairs m).
Proof.
  unfold pairs. apply NoDup_bind.
  - intros i i' [a b] _ _ (j & Hj & _)%list_elem_of_bind
      (j' & Hj' & _)%list_elem_of_bind.
    apply list_elem_of_singleton in Hj as [= -> ->].
    by apply list_elem_of_singleton in Hj' as [= -> _].
  - intros i _. apply NoDup_bind.
    + intros j j' [a b] _ _ Hj Hj'.
      apply list_elem_of_singleton in Hj as [= _ ->].
      by apply list_elem_of_singleton in Hj' as [= _ ->].
    + intros j _. apply NoDup_singleton.
    + apply NoDup_seq.
  - apply NoDup_seq.
Qed.

(** Updating the entries of a list of distinct keys, one after the other. *)
Lemma lookup_foldr_insert {K V} `{Countable K} (g : K → option V → V)
    (m0 : gmap K V) (l : list K) k :
  NoDup l →
  foldr (λ i m, <[i := g i (m !! i)]> m) m0 l !! k
  = if decide (k ∈ l) then Some (g k (m0 !! k)) else m0 !! k.
Proof.
  induction 1 as [|a l Ha _ IH].
  - case_decide as Hin; [by apply not_elem_of_nil in Hin|done].
  - cbn [foldr]. destruct (decide (k = a)) as [->|Hne].
    + rewrite lookup_insert_eq. rewrite decide_True by left.
      clear IH. f_equal. f_equal.
      induction l as [|b l IHl]; [done|]. cbn [foldr].
      apply not_elem_of_cons in Ha as [Hab Ha].
      rewrite lookup_insert_ne by done. by apply IHl.
    + rewrite lookup_insert_ne by done. rewrite IH.
      destruct (decide (k ∈ l)) as [Hin|Hnin].
      * by rewrite decide_True by (by right).
      * rewrite decide_False; [done|]. by intros [?|?]%elem_of_cons.
Qed.

Section AccumulatorFacts.
Variable tolerance : R.
Implicit Types (probs : ProbabilityBatch) (st : DiversityState).

Lemma length_examples probs : length (examples probs) = examples_in probs.
Proof. unfold examples. by rewrite length_fmap, length_seq. Qed.

  (** The contributions of a batch to a pair, example by example. *)
Lemma contributions_by_example probs m i j :
    valid_batch tolerance probs m → (i < m)%nat → (j < m)%nat →
    zip_with contribution (probs !!! i) (probs !!! j)
    = (λ ex, contribution (ex !!! i) (ex !!! j)) <$> examples probs.
Proof.
    intros (_ & Hlen & Hall) Hi Hj.
    assert (∀ k, (k < m)%nat → length (probs !!! k) = examples_in probs) as Hk.
    { intros k Hkm. rewrite Forall_lookup in Hall.
      destruct (lookup_lt_is_Some_2 probs k) as [member Hmember]; [lia|].
      rewrite (list_lookup_total_correct _ _ _ Hmember).
      by destruct (Hall k member Hmember). }
    apply list_eq. intros e. unfold examples.
    rewrite lookup_zip_with, !list_lookup_fmap.
    destruct (decide (e < examples_in probs)%nat) as [He|He].
    - rewrite lookup_seq_lt by done. simpl.
      destruct (lookup_lt_is_Some_2 (probs !!! i) e) as [p Hp];
        [by rewrite Hk|].
      destruct (lookup_lt_is_Some_2 (probs !!! j) e) as [q Hq];
        [by rewrite Hk|].
      rewrite Hp, Hq. simpl. f_equal.
      rewrite (list_lookup_total_fmap _ probs i), (list_lookup_total_fmap _ probs j) by lia.
      by rewrite (list_lookup_total_correct _ _ _ Hp),
                 (list_lookup_total_correct _ _ _ Hq).
    - rewrite lookup_seq_ge by lia. simpl.
      rewrite (lookup_ge_None_2 (probs !!! i)) by (rewrite Hk; lia). done.
Qed.

Lemma add_batch_OK probs m st st' :
    add_batch tolerance probs m st = OK st' ↔
    valid_batch tolerance probs m ∧
    st' = {| examples_seen := examples_seen st + examples_in probs;
             pair_sums :=
               foldr (λ ij sums,
                        <[ij := add_sums (default no_sums (sums !! ij))
                                         (pair_contribution probs ij)]> sums)
                     (pair_sums st) (pairs m) |}.
Proof. unfold add_batch. case_decide; naive_solver. Qed.

Lemma add_batch_Raise probs m st :
    ¬ valid_batch tolerance probs m →
    add_batch tolerance probs m st = Raise (InvalidArgumentError "add_batch").
Proof. intros. unfold add_batch. by rewrite decide_False. Qed.

  (** The sums of a pair after one batch. *)
Lemma add_batch_lookup probs m st st' ij :
    add_batch tolerance probs m st = OK st' →
    pair_sums st' !! ij
    = if decide (ij ∈ pairs m)
      then Some (add_sums (default no_sums (pair_sums st !! ij))
                   (sum_sums ((λ ex, contribution (ex !!! ij.1) (ex !!! ij.2))
                                <$> examples probs)))
      else pair_sums st !! ij.
Proof.
    intros [Hvalid ->]%add_batch_OK. simpl.
    rewrite (lookup_foldr_insert
               (λ ij o, add_sums (default no_sums o) (pair_contribution probs ij)))
      by apply NoDup_pairs.
    destruct (decide (ij ∈ pairs m)) as [Hin|]; [|done].
    destruct ij as [i j]. apply elem_of_pairs in Hin.
    unfold pair_contribution. simpl.
    by rewrite (contributions_by_example probs m) by (done || lia).
Qed.

  (** The state after a sequence of batches, in terms of the examples fed. *)
Lemma add_batches_state batches m st st' :
    add_batches tolerance batches m st = OK st' →
    examples_seen st' = (examples_seen st + length (batches ≫= examples))%nat ∧
    ∀ ij, pair_sums st' !! ij
      = if decide (ij ∈ pairs m ∧ batches ≠ [])
        then Some (add_sums (default no_sums (pair_sums st !! ij))
                     (sum_sums ((λ ex, contribution (ex !!! ij.1) (ex !!! ij.2))
                                  <$> (batches ≫= examples))))
        else pair_sums st !! ij.
Proof.
    revert st. induction batches as [|probs rest IH]; intros st; cbn [add_batches].
    - intros [= <-]. split; [simpl; lia|]. intros ij.
      by rewrite decide_False by (by intros [_ ?]).
    - destruct (add_batch tolerance probs m st) as [st1|] eqn:E1; [|done].
      change (Py.bind (OK st1) ?k) with (k st1). cbv beta.
      intros [Hcount Hsums]%IH. split.
      + rewrite Hcount. pose proof E1 as [_ ->]%add_batch_OK.
        cbn [examples_seen]. rewrite bind_cons, length_app, length_examples. lia.
      + intros ij. rewrite Hsums, (add_batch_lookup _ _ _ _ _ E1).
        rewrite bind_cons.
        destruct (decide (ij ∈ pairs m)) as [Hin|Hnin].
        * rewrite (decide_True (P := _ ∧ (probs :: rest ≠ []))) by done.
          destruct (decide (ij ∈ pairs m ∧ rest ≠ [])) as [[_ Hrest]|Hrest].
          -- simpl. rewrite fmap_app, sum_sums_app, add_sums_assoc. done.
          -- assert (rest = []) as -> by (destruct rest; naive_solver).
             simpl. by rewrite app_nil_r.
        * rewrite !decide_False by (by intros [? _]). done.
Qed.

Lemma add_batches_OK batches m st :
    Forall (λ probs, valid_batch tolerance probs m) batches →
    ∃ st', add_batches tolerance batches m st = OK st'.
Proof.
    intros Hall. revert st. induction Hall as [|probs rest Hv _ IH]; intros st.
    - by exists st.
    - simpl. unfold add_batch. rewrite decide_True by done. apply IH.
Qed.

Lemma result_same st st' :
    examples_seen st = examples_seen st' →
    (examples_seen st ≠ 0%nat → pair_sums st = pair_sums st') →
    result st = result st'.
Proof.
    intros Hcount Hsums.
    assert (∀ field, average field st = average field st') as Havg.
    { intros field. unfold average, total. rewrite <-Hcount.
      case_decide; [done|]. by rewrite Hsums. }
    unfold result. by rewrite !Havg.
Qed.
End AccumulatorFacts.

(** C8: whatever the batches into which a collection of examples is cut,
    and in whatever order, feeding them one [add_batch] at a time gives
    the [result()] that feeding all the examples as one batch gives. *)
Theorem batch_invariance tolerance num_models
    (batches : list ProbabilityBatch) (all : ProbabilityBatch) :
  Forall (λ probs, valid_batch tolerance probs num_models) batches →
  valid_batch tolerance all num_models →
  batches ≫= examples ≡ₚ examples all →
  ∃ st st',
    add_batches tolerance batches num_models empty_state = OK st ∧
    add_batch tolerance all num_models empty_state = OK st' ∧
    result st = result st'.
Proof.
  intros Hvalid Hall Hperm.
  destruct (add_batches_OK tolerance batches num_models empty_state Hvalid) as [st Hst].
  destruct (add_batches_OK tolerance [all] num_models empty_state) as [st' Hst'];
    [by constructor|].
  exists st, st'. split_and!; [done|..].
  - simpl in Hst'. by destruct (add_batch _ _ _ _).
  - apply add_batches_state in Hst as [Hcount Hsums].
    apply add_batches_state in Hst' as [Hcount' Hsums'].
    simpl in Hcount', Hsums'. rewrite app_nil_r in Hcount', Hsums'.
    apply result_same.
    + rewrite Hcount, Hcount'. by rewrite Hperm.
    + intros Hseen. apply map_eq. intros ij. rewrite Hsums, Hsums'.
      assert (batches ≠ []) as Hne.
      { intros ->. apply Hseen. by rewrite Hcount. }
      destruct (decide (ij ∈ pairs num_models)) as [Hin|Hnin].
      * rewrite !decide_True by done. do 2 f_equal.
        apply sum_sums_Permutation. by apply fmap_Permutation.
      * by rewrite !decide_False by (by intros [? _]).
Qed.

Ltac sums_to_one :=
  unfold is_distribution, sum_R; cbn [foldr];
  match goal with
  | |- (Rabs ?x <= _)%R => replace x with 0%R by lra; rewrite Rabs_R0; lra
  end.

Ltac check_batch :=
  split_and!; [lia|done|];
  repeat (apply Forall_cons_2;
          [split; [done|];
           repeat (apply Forall_cons_2; [split; [done|sums_to_one]|]);
           apply Forall_nil_2|]);
  apply Forall_nil_2.

Lemma batch_first_valid : valid_batch 0 batch_first 3.
Proof. check_batch. Qed.

Lemma batch_second_valid : valid_batch 0 batch_second 3.
Proof. check_batch. Qed.

Lemma batch_both_valid : valid_batch 0 batch_both 3.
Proof. check_batch. Qed.

Lemma batch_invariance_witness :
  ∃ st st',
    add_batches 0 [batch_first; batch_second] 3 empty_state = OK st ∧
    add_batch 0 batch_both 3 empty_state = OK st' ∧
    result st = result st'.
Proof.
  apply batch_invariance.
  - apply Forall_cons_2; [apply batch_first_valid|].
    apply Forall_cons_2; [apply batch_second_valid|]. apply Forall_nil_2.
  - apply batch_both_valid.
  - reflexivity.
Defined.

(** C9: whatever the state, and so after any sequence of [add_batch]
    calls, [result()] has the three keys [disagreement], [average_kl] and
    [cosine_similarity] and no other; each value is one number, or, only
    when no example was seen, the mark for "undefined". *)
Theorem result_keys (st : DiversityState) :
  dom (result st) = {[ "disagreement"; "average_kl"; "cosine_similarity" ]} ∧
  size (result st) = 3%nat ∧
  ∀ k v, result st !! k = Some v →
    if decide (examples_seen st = 0%nat) then v = undefined
    else ∃ r, v = scalar r.
Proof.
  unfold result. split_and!.
  - rewrite !dom_insert_L, dom_singleton_L. set_solver.
  - rewrite !map_size_insert_None, map_size_singleton; [done|..];
      by simplify_map_eq.
  - intros k v Hk.
    assert (∃ field, v = average field st) as [field ->].
    { repeat (apply lookup_insert_Some in Hk as [[_ <-]|[_ Hk]]; [eauto|]).
      apply lookup_singleton_Some in Hk as [_ <-]. eauto. }
    unfold average. case_decide; eauto.
Qed.

End diversity_facts.
